(** * MixMatch with 1-D optimal transport: batch construction

    A shallow embedding of [src/mixmatch.py] ([generate_noise],
    [noisy_augment], [mixmatch_ot1d]) together with the NumPy and
    scikit-learn operations the three functions call.

    Python objects live in a store: every [ndarray] is an object of the
    [heap], named by its location; Python lists of arrays are lists of
    locations.  A computation is a function from a [state] to a [result]
    and a new state; an exception keeps the state reached when it was
    raised, so that the calls made before a failure stay visible in the
    [trace]. *)

From Stdlib Require Import ZArith Lia.
From stdpp Require Import base list sorting.

(** ** Scalars *)

(** NumPy's float64 with the operations the code uses: [+], [<], [<=]. *)
Class Scalar := {
  float : Type;
  fzero : float;
  fadd : float → float → float;
  flt : float → float → bool;
  fle : float → float → bool
}.

Section Arrays.
Context `{Scalar}.

(** ** Arrays *)

(** A 2-D array of shape [(length rows, ncols)]. *)
Record matrix := Matrix { ncols : nat; rows : list (list float) }.

Definition nrows (m : matrix) : nat := length (rows m).

Definition shape (m : matrix) : nat * nat := (nrows m, ncols m).

(** What NumPy guarantees of every 2-D array. *)
Definition wf_matrix (m : matrix) : Prop :=
  Forall (λ r, length r = ncols m) (rows m).

(** An [ndarray] is either 2-D, or 1-D with Python lists as items: the
    latter arises from [np.array] alone, on ragged rows (dtype object)
    and on the empty list (shape [(0,)]). *)
Inductive ndarray :=
  | Mat (m : matrix)
  | Arr1 (items : list (list float)).

(** Python's [len]. *)
Definition len (a : ndarray) : nat :=
  match a with
  | Mat m => nrows m
  | Arr1 items => length items
  end.

Definition is_2d (a : ndarray) : bool :=
  match a with Mat _ => true | Arr1 _ => false end.

End Arrays.

(** ** External collaborators *)

(** Modelled from the spec: the routine [mixup_ot1d] of [src/mixup.py],
    which is not among the sources at hand.  The spec describes it as
    an opaque numeric routine [mixup(anchorBatch, poolBatch,
    anchorLabels, poolLabels, alpha, K) -> (MixedBatch, MixedLabels)]
    with a Beta-distributed mixing coefficient, which may fail.  It is
    taken as a function of the contents of its four array arguments, of
    [alpha], of [K] and of the generator, which answers with two new
    arrays or raises. *)
Definition mixup_routine `{Scalar} (rstate xexn : Type) : Type :=
  ndarray → ndarray → ndarray → ndarray → float → Z →
  rstate → (xexn + ndarray * ndarray) * rstate.

(** [rstate] is the state of NumPy's global generator [np.random], the
    source of the noise and of the shuffle; [mstate] is whatever hidden
    state the predictor carries; [xexn] is the type of the exceptions the
    collaborators raise.

    [normal s] is one sample of [np.random.normal(scale=s)];
    [random_permutation n] is [random_state.shuffle(np.arange(n))] inside
    [sklearn.utils.shuffle]; [legacy_ragged] tells the NumPy at hand:
    before 1.24 [np.array] builds a 1-D array of Python lists from ragged
    rows, from 1.24 on it raises [ValueError].

    [model] is the predictor handed to [mixmatch_ot1d], applied to the
    contents of a batch: it reads its argument and answers with a new
    tensor or raises. *)
Class Collaborators `{Scalar} := {
  rstate : Type;
  mstate : Type;
  xexn : Type;
  normal : float → rstate → float * rstate;
  random_permutation : nat → rstate → list nat * rstate;
  legacy_ragged : bool;
  model : matrix → mstate → (xexn + matrix) * mstate;
  mixup_ot1d : mixup_routine rstate xexn
}.

Section Mixmatch.
Context `{Collaborators}.

(** ** Store, exceptions and the computation monad *)

Definition loc := nat.

(** An argument handed to a collaborator: an array [A] itself, or one
    of the views [A[:k]] and [A[k:]], which share [A]'s buffer. *)
Inductive aref :=
  | Whole (l : loc)
  | Upto (l : loc) (k : nat)
  | From (l : loc) (k : nat).

Inductive event :=
  | CallModel (x : loc)
  | CallMixup (a w la lw : aref) (alpha : float) (K : Z)
  | Write (l : loc).

Record state := State {
  heap : list ndarray;
  rng : rstate;
  pst : mstate;
  trace : list event
}.

(** [Stuck] marks what lies outside the embedding: a dangling location
    or an array that is not 2-D where the docstrings demand [(n,m)]. *)
Inductive exn :=
  | ValueError
  | IndexError
  | Raised (e : xexn)
  | Stuck.

Inductive result (A : Type) :=
  | Ok (a : A)
  | Err (e : exn).
Global Arguments Ok {A} a.
Global Arguments Err {A} e.

Definition M (A : Type) : Type := state → result A * state.

Definition run {A} (c : M A) (s : state) : result A * state := c s.

#[global] Instance M_ret : MRet M := λ A a s, (Ok a, s).

#[global] Instance M_bind : MBind M := λ A B k c s,
  match c s with
  | (Ok a, s') => k a s'
  | (Err e, s') => (Err e, s')
  end.

Definition raise {A} (e : exn) : M A := λ s, (Err e, s).

Definition emit (ev : event) : M unit := λ s,
  (Ok (), State (heap s) (rng s) (pst s) (trace s ++ [ev])).

(** A new object gets the next free location. *)
Definition alloc (a : ndarray) : M loc := λ s,
  (Ok (length (heap s)), State (heap s ++ [a]) (rng s) (pst s) (trace s)).

Definition load (l : loc) : M ndarray := λ s,
  match heap s !! l with
  | Some a => (Ok a, s)
  | None => (Err Stuck, s)
  end.

Definition load_mat (l : loc) : M matrix :=
  a ← load l;
  match a with
  | Mat m => mret m
  | Arr1 _ => raise Stuck
  end.

(** The one in-place update of an existing object; it is logged. *)
Definition store (l : loc) (a : ndarray) : M unit := λ s,
  match heap s !! l with
  | Some _ =>
      (Ok (), State (<[l:=a]> (heap s)) (rng s) (pst s) (trace s ++ [Write l]))
  | None => (Err Stuck, s)
  end.

Definition with_rng {A} (f : rstate → A * rstate) : M A := λ s,
  let '(a, g) := f (rng s) in (Ok a, State (heap s) g (pst s) (trace s)).

Definition with_pst {A} (f : mstate → A * mstate) : M A := λ s,
  let '(a, p) := f (pst s) in (Ok a, State (heap s) (rng s) p (trace s)).

Definition slice_to (k : nat) (a : ndarray) : ndarray :=
  match a with
  | Mat m => Mat (Matrix (ncols m) (take k (rows m)))
  | Arr1 items => Arr1 (take k items)
  end.

Definition slice_from (k : nat) (a : ndarray) : ndarray :=
  match a with
  | Mat m => Mat (Matrix (ncols m) (drop k (rows m)))
  | Arr1 items => Arr1 (drop k items)
  end.

(** The contents seen through an argument. *)
Definition deref (r : aref) : M ndarray :=
  match r with
  | Whole l => load l
  | Upto l k => a ← load l; mret (slice_to k a)
  | From l k => a ← load l; mret (slice_from k a)
  end.

(** ** NumPy and scikit-learn operations *)

(** [k] consecutive samples at scale [s]. *)
Fixpoint normal_row (s : float) (k : nat) (g : rstate) : list float * rstate :=
  match k with
  | 0 => ([], g)
  | S k' =>
      let '(x, g1) := normal s g in
      let '(xs, g2) := normal_row s k' g1 in
      (x :: xs, g2)
  end.

(** [n] rows of [m] samples each, drawn in row-major order. *)
Fixpoint normal_rows (s : float) (n m : nat) (g : rstate)
    : list (list float) * rstate :=
  match n with
  | 0 => ([], g)
  | S n' =>
      let '(r, g1) := normal_row s m g in
      let '(rs, g2) := normal_rows s n' m g1 in
      (r :: rs, g2)
  end.

(** [np.random.normal(size=shp, scale=s)]: a negative scale is refused
    before anything is drawn. *)
Definition np_random_normal (shp : nat * nat) (s : float) : M loc :=
  if flt s fzero then raise ValueError
  else
    d ← with_rng (normal_rows s shp.1 shp.2);
    alloc (Mat (Matrix shp.2 d)).

Definition madd (a b : matrix) : matrix :=
  Matrix (ncols a) (zip_with (zip_with fadd) (rows a) (rows b)).

(** [A + B] for two arrays of one shape: a new array.  Broadcasting
    between different shapes does not occur in this code and is outside
    the embedding. *)
Definition ndarray_add (A B : loc) : M loc :=
  a ← load_mat A;
  b ← load_mat B;
  if decide (shape a = shape b) then alloc (Mat (madd a b))
  else raise Stuck.

(** Python's [range(K)]. *)
Definition py_range (K : Z) : list Z := Z.of_nat <$> seq 0 (Z.to_nat K).

(** Python's [xs[-1]]. *)
Definition py_last {A} (xs : list A) : M A :=
  match last xs with
  | Some x => mret x
  | None => raise IndexError
  end.

(** Two arrays side by side, and a list of them; the latter needs at
    least one array, and equal row counts. *)
Definition hcat (a b : matrix) : matrix :=
  Matrix (ncols a + ncols b) (zip_with app (rows a) (rows b)).

Definition hstack (ms : list matrix) : option matrix :=
  match ms with
  | [] => None
  | a :: rest =>
      if forallb (λ b, nrows b =? nrows a) rest then Some (foldl hcat a rest)
      else None
  end.

(** [np.concatenate(arrs, axis=1)]: a new array, or [ValueError]. *)
Definition np_concatenate_axis1 (arrs : list loc) : M loc :=
  ms ← mapM load_mat arrs;
  match hstack ms with
  | Some q => alloc (Mat q)
  | None => raise ValueError
  end.

Definition vstack (a b : matrix) : matrix :=
  Matrix (ncols a) (rows a ++ rows b).

(** [np.concatenate((A, B), axis=0)]: a new array; it needs equal column
    counts. *)
Definition np_concatenate_axis0 (A B : loc) : M loc :=
  a ← load_mat A;
  b ← load_mat B;
  if ncols a =? ncols b then alloc (Mat (vstack a b))
  else raise ValueError.

(** A row in ascending order of [<=]. *)
Definition sort_row (r : list float) : list float :=
  merge_sort (λ x y, fle x y) r.

Definition sort_rows (a : matrix) : matrix :=
  Matrix (ncols a) (sort_row <$> rows a).

(** [A.sort(axis=1)]: every row sorted ascending, in place. *)
Definition ndarray_sort_axis1 (A : loc) : M unit :=
  a ← load_mat A;
  store A (Mat (sort_rows a)).

(** [A.tolist()]: the rows as new Python lists. *)
Definition tolist (A : loc) : M (list (list float)) :=
  a ← load_mat A;
  mret (rows a).

(** What [np.array] makes of a list of rows: a 2-D array when there is
    a row and all rows have one length, the empty vector on no rows, and
    on ragged rows what the NumPy at hand does. *)
Definition array_of (rs : list (list float)) : option ndarray :=
  match rs with
  | [] => Some (Arr1 [])
  | r :: _ =>
      if forallb (λ r', length r' =? length r) rs then
        Some (Mat (Matrix (length r) rs))
      else if legacy_ragged then Some (Arr1 rs)
      else None
  end.

(** [np.array(rs)]: a new array, or [ValueError]. *)
Definition np_array (rs : list (list float)) : M loc :=
  match array_of rs with
  | Some a => alloc a
  | None => raise ValueError
  end.

Definition items_of (a : ndarray) : list (list float) :=
  match a with Mat m => rows m | Arr1 items => items end.

Definition with_items (a : ndarray) (its : list (list float)) : ndarray :=
  match a with
  | Mat m => Mat (Matrix (ncols m) its)
  | Arr1 _ => Arr1 its
  end.

Definition index_items (idx : list nat) (a : ndarray) : option ndarray :=
  with_items a <$> mapM (λ i, items_of a !! i) idx.

(** [A[idx]] for an index array: a new array, or [IndexError]. *)
Definition take_indices (idx : list nat) (A : loc) : M loc :=
  a ← load A;
  match index_items idx a with
  | Some b => alloc b
  | None => raise IndexError
  end.

(** [sklearn.utils.shuffle(A, B)]: the lengths are checked, then one
    permutation is drawn and applied to both arrays. *)
Definition shuffle (A B : loc) : M (loc * loc) :=
  a ← load A;
  b ← load B;
  if len a =? len b then
    idx ← with_rng (random_permutation (len a));
    A' ← take_indices idx A;
    B' ← take_indices idx B;
    mret (A', B')
  else raise ValueError.

(** Python's [len(A)]. *)
Definition py_len (A : loc) : M nat :=
  a ← load A;
  mret (len a).

(** A call of the external [mixup_ot1d]: the call is logged, the
    routine sees the contents of its arguments, and its two results are
    new arrays. *)
Definition call_mixup (a w la lw : aref) (alpha : float) (K : Z)
    : M (loc * loc) :=
  va ← deref a;
  vw ← deref w;
  vla ← deref la;
  vlw ← deref lw;
  emit (CallMixup a w la lw alpha K);;
  r ← with_rng (mixup_ot1d va vw vla vlw alpha K);
  match r with
  | inl e => raise (Raised e)
  | inr (x, y) =>
      X' ← alloc x;
      Y' ← alloc y;
      mret (X', Y')
  end.

(** ** The functions of [mixmatch.py] *)

(** Lines 18-34. *)
Definition generate_noise (X : loc) (stddev : float) : M loc :=
  x ← load_mat X;
  np_random_normal (shape x) stddev.

(** The expression [X+generate_noise(X,stddev=stddev)] of lines 52 and
    87: the noise is a new array, and so is the sum. *)
Definition add_noise (X : loc) (stddev : float) : M loc :=
  N ← generate_noise X stddev;
  ndarray_add X N.

(** Lines 37-53: [[X+generate_noise(X,stddev=stddev) for i in range(K)]]. *)
Definition noisy_augment (X : loc) (stddev : float) (K : Z) : M (list loc) :=
  mapM (λ _ : Z, add_noise X stddev) (py_range K).

(** Line 94: [modeln = lambda x : model(x).numpy()]. *)
Definition modeln (x : loc) : M loc :=
  v ← load_mat x;
  emit (CallModel x);;
  r ← with_pst (model v);
  match r with
  | inl e => raise (Raised e)
  | inr t => alloc (Mat t)
  end.

(** Lines 87-91: the noisy copy of [X], the [naug] noisy copies of [U]
    and the anchor [Uhat = Uaugs[-1]]. *)
Definition augment (X U : loc) (stddev : float) (naug : Z)
    : M (loc * list loc * loc) :=
  Xhat ← add_noise X stddev;
  Uaugs ← noisy_augment U stddev naug;
  Uhat ← py_last Uaugs;
  mret (Xhat, Uaugs, Uhat).

(** Lines 94-100: the predictions on every copy, joined column-wise
    into [Q], which is then sorted row by row. *)
Definition pseudo_labels (Uaugs : list loc) : M loc :=
  preds ← mapM modeln Uaugs;
  Q ← np_concatenate_axis1 preds;
  ndarray_sort_axis1 Q;;
  mret Q.

(** Lines 103-107: the pool [W] and its labels [Wlabels]. *)
Definition merge_pool (Xhat Uhat Y Q : loc) : M (loc * loc) :=
  W ← np_concatenate_axis0 Xhat Uhat;
  Yl ← tolist Y;
  Ql ← tolist Q;
  Wlabels ← np_array (Yl ++ Ql);
  mret (W, Wlabels).

(** Lines 110-122: shuffle, split at [len(W)//2], and the two calls of
    [mixup_ot1d]. *)
Definition split_mixup (Xhat Uhat Y Q W Wlabels : loc) (alpha : float) (K : Z)
    : M (loc * loc * loc * loc) :=
  '(W', Wlabels') ← shuffle W Wlabels;
  n ← py_len W';
  let l := n `div` 2 in
  '(Xprime, Yprime) ←
    call_mixup (Whole Xhat) (Upto W' l) (Whole Y) (Upto Wlabels' l) alpha K;
  '(Uprime, Qprime) ←
    call_mixup (Whole Uhat) (From W' l) (Whole Q) (From Wlabels' l) alpha K;
  mret (Xprime, Yprime, Uprime, Qprime).

(** The local variables bound by lines 87-107. *)
Record locals := Locals {
  Xhat : loc;
  Uaugs : list loc;
  Uhat : loc;
  Q : loc;
  W : loc;
  Wlabels : loc
}.

(** Lines 87-107. *)
Definition build_pool (X Y U : loc) (stddev : float) (naug : Z) : M locals :=
  '(Xhat, Uaugs, Uhat) ← augment X U stddev naug;
  Q ← pseudo_labels Uaugs;
  '(W, Wlabels) ← merge_pool Xhat Uhat Y Q;
  mret (Locals Xhat Uaugs Uhat Q W Wlabels).

(** Lines 57-122. *)
Definition mixmatch_ot1d (X Y U : loc) (stddev alpha : float) (K naug : Z)
    : M (loc * loc * loc * loc) :=
  v ← build_pool X Y U stddev naug;
  split_mixup (Xhat v) (Uhat v) Y (Q v) (W v) (Wlabels v) alpha K.

(** ** Vocabulary of the properties *)

(** The contents seen through an argument in the store [h]. *)
Definition view (h : list ndarray) (r : aref) : option ndarray :=
  match r with
  | Whole l => h !! l
  | Upto l k => slice_to k <$> h !! l
  | From l k => slice_from k <$> h !! l
  end.

(** The locations written in place, as a trace records them. *)
Definition writes (t : list event) : list loc :=
  omap (λ ev, match ev with Write l => Some l | _ => None end) t.

(** What a caller observes of a run: the exception, or the contents of
    the four arrays returned. *)
Definition observe (o : result (loc * loc * loc * loc) * state)
    : result (option ndarray * option ndarray * option ndarray * option ndarray) :=
  match o with
  | (Ok (a, b, c, d), s) => Ok (heap s !! a, heap s !! b, heap s !! c, heap s !! d)
  | (Err e, _) => Err e
  end.

(** The noise drawn for an array with the contents [x]. *)
Definition noise_of (x : matrix) (s : float) (g : rstate) : matrix :=
  Matrix (ncols x) (normal_rows s (nrows x) (ncols x) g).1.

(** The generator after the noise for [x] has been drawn. *)
Definition noise_rng (x : matrix) (s : float) (g : rstate) : rstate :=
  (normal_rows s (nrows x) (ncols x) g).2.

(** [k] successive noisy copies of [x]; the objects they leave in the
    store (each noise array, then the copy); the generator afterwards;
    and the locations of the copies when the store had [base] objects. *)
Fixpoint noisy_copies (x : matrix) (s : float) (k : nat) (g : rstate)
    : list matrix :=
  match k with
  | 0 => []
  | S k' => madd x (noise_of x s g) :: noisy_copies x s k' (noise_rng x s g)
  end.

Fixpoint noisy_objects (x : matrix) (s : float) (k : nat) (g : rstate)
    : list ndarray :=
  match k with
  | 0 => []
  | S k' =>
      Mat (noise_of x s g) :: Mat (madd x (noise_of x s g))
        :: noisy_objects x s k' (noise_rng x s g)
  end.

Fixpoint noisy_rng (x : matrix) (s : float) (k : nat) (g : rstate) : rstate :=
  match k with
  | 0 => g
  | S k' => noisy_rng x s k' (noise_rng x s g)
  end.

Fixpoint copy_locs (base : nat) (k : nat) : list loc :=
  match k with
  | 0 => []
  | S k' => S base :: copy_locs (S (S base)) k'
  end.

(** The answers of the predictor on the batches [ms], asked in order
    from the hidden state [p], up to the first exception. *)
Fixpoint predict_all (ms : list matrix) (p : mstate)
    : (xexn + list matrix) * mstate :=
  match ms with
  | [] => (inr [], p)
  | m :: ms' =>
      match model m p with
      | (inl e, p1) => (inl e, p1)
      | (inr t, p1) =>
          match predict_all ms' p1 with
          | (inl e, p2) => (inl e, p2)
          | (inr ts, p2) => (inr (t :: ts), p2)
          end
      end
  end.

(** The two calls of [mixup_ot1d] of lines 115-119, for the shuffled
    pool at [Ws], [Wls] and the split index [l]. *)
Definition first_call (v : locals) (Y Ws Wls : loc) (l : nat)
    (alpha : float) (K : Z) : event :=
  CallMixup (Whole (Xhat v)) (Upto Ws l) (Whole Y) (Upto Wls l) alpha K.

Definition second_call (v : locals) (Ws Wls : loc) (l : nat)
    (alpha : float) (K : Z) : event :=
  CallMixup (Whole (Uhat v)) (From Ws l) (Whole (Q v)) (From Wls l) alpha K.

(** The arrays at [ls] have the contents [ms]. *)
Definition holds (h : list ndarray) (ls : list loc) (ms : list matrix) : Prop :=
  Forall2 (λ l m, h !! l = Some (Mat m)) ls ms.

(** The store after line 90, from the contents [x] of [X] and [u] of
    [U]: the noise for [X], [Xhat], then noise and copy for each
    augmentation of [U]. *)
Definition augment_objects (x u : matrix) (sd : float) (k : nat) (g : rstate)
    : list ndarray :=
  [Mat (noise_of x sd g); Mat (madd x (noise_of x sd g))]
    ++ noisy_objects u sd k (noise_rng x sd g).

(** What a successful run of lines 87-107 has established: the
    contents of every local array, the store and the trace. *)
Definition pool_built (x y u : matrix) (sd : float) (naug : Z)
    (s : state) (v : locals) (s' : state) : Prop :=
  let n := length (heap s) in
  let k := Z.to_nat naug in
  let xh := madd x (noise_of x sd (rng s)) in
  let ms := noisy_copies u sd k (noise_rng x sd (rng s)) in
  ∃ uh ts q wl,
    last ms = Some uh ∧
    predict_all ms (pst s) = (inr ts, pst s') ∧
    hstack ts = Some q ∧
    ncols xh = ncols uh ∧
    array_of (rows y ++ rows (sort_rows q)) = Some wl ∧
    v = Locals (S n) (copy_locs (S (S n)) k) (n + 2 * k + 1)
          (n + (2 + 2 * k) + k) (S (n + (2 + 2 * k) + k))
          (S (S (n + (2 + 2 * k) + k))) ∧
    last (Uaugs v) = Some (Uhat v) ∧
    heap s' = heap s ++ augment_objects x u sd k (rng s) ++ (Mat <$> ts)
                ++ [Mat (sort_rows q); Mat (vstack xh uh); wl] ∧
    rng s' = noisy_rng u sd k (noise_rng x sd (rng s)) ∧
    trace s' = trace s ++ (CallModel <$> Uaugs v) ++ [Write (Q v)] ∧
    heap s' !! Xhat v = Some (Mat xh) ∧
    holds (heap s') (Uaugs v) ms ∧
    heap s' !! Uhat v = Some (Mat uh) ∧
    heap s' !! Q v = Some (Mat (sort_rows q)) ∧
    heap s' !! W v = Some (Mat (vstack xh uh)) ∧
    heap s' !! Wlabels v = Some wl.

(** An in-place write recorded by [ev] hits an object created after
    the state [s]. *)
Definition fresh_write (s : state) (ev : event) : Prop :=
  ∀ l, ev = Write l → length (heap s) ≤ l.

(** [framed c]: whatever its outcome, a run of [c] keeps every object
    that existed before it as it was, only adds to the trace, and its
    in-place writes hit objects created during the run. *)
Definition framed {A} (c : M A) : Prop :=
  ∀ s r s', run c s = (r, s') →
    heap s `prefix_of` heap s' ∧
    ∃ t, trace s' = trace s ++ t ∧ Forall (fresh_write s) t.

(** [readonly c]: a run of [c] changes nothing. *)
Definition readonly {A} (c : M A) : Prop :=
  ∀ s r s', run c s = (r, s') → s' = s.

(** The predictor answers every batch with one label row per input
    row. *)
Definition row_preserving : Prop :=
  ∀ m p, ∃ t p', model m p = (inr t, p') ∧ nrows t = nrows m.

(** The predictor answers every batch of [n] rows with an [(n,1)] label
    column. *)
Definition label_column : Prop :=
  ∀ m p, ∃ t p',
    model m p = (inr t, p') ∧ nrows t = nrows m ∧ ncols t = 1 ∧ wf_matrix t.

(** The answer of the predictor does not depend on its hidden state. *)
Definition deterministic_model : Prop :=
  ∀ m p p', (model m p).1 = (model m p').1.

(** What [random_state.shuffle(np.arange(n))] leaves: the indices
    [0 .. n-1] in some order. *)
Definition permutation_source : Prop :=
  ∀ n g, (random_permutation n g).1 ≡ₚ seq 0 n.

(** The items of a pool, each next to its label. *)
Definition pairs (a b : ndarray) : list (list float * list float) :=
  zip (items_of a) (items_of b).

End Mixmatch.

Arguments run : simpl never.

(** ** A concrete instance for evaluation *)

(** Integers as scalars; a counter as generator, whose samples are the
    scale times the counter; the reversal as permutation; a predictor
    that sums each row into one label and counts its calls; a mixup
    that answers with its pool arguments. *)
Module Demo.

#[export] Instance int_scalar : Scalar := {|
  float := Z;
  fzero := 0%Z;
  fadd := Z.add;
  flt := Z.ltb;
  fle := Z.leb
|}.

Definition row_sum_model (m : matrix) (p : nat) : (unit + matrix) * nat :=
  (inr (Matrix 1 ((λ r, [foldr Z.add 0%Z r]) <$> rows m)), S p).

Definition pool_mixup (a w la lw : ndarray) (alpha : Z) (K : Z) (g : nat)
    : (unit + ndarray * ndarray) * nat :=
  (inr (w, lw), S g).

Definition demo_with (legacy : bool) : Collaborators := {|
  rstate := nat;
  mstate := nat;
  xexn := unit;
  normal := λ s g, ((s * Z.of_nat g)%Z, S g);
  random_permutation := λ n g, (reverse (seq 0 n), S g);
  legacy_ragged := legacy;
  model := row_sum_model;
  mixup_ot1d := pool_mixup
|}.

#[export] Instance demo : Collaborators := demo_with true.

(** The same collaborators around another predictor: one that raises
    at its second call, and one that answers its [p]-th call with [p]
    rows, whatever the batch. *)
Definition demo_model (f : matrix → nat → (unit + matrix) * nat)
    : Collaborators := {|
  rstate := nat;
  mstate := nat;
  xexn := unit;
  normal := λ s g, ((s * Z.of_nat g)%Z, S g);
  random_permutation := λ n g, (reverse (seq 0 n), S g);
  legacy_ragged := true;
  model := f;
  mixup_ot1d := pool_mixup
|}.

Definition failing_model (m : matrix) (p : nat) : (unit + matrix) * nat :=
  if p =? 1 then (inl (), S p) else row_sum_model m p.

Definition uneven_model (m : matrix) (p : nat) : (unit + matrix) * nat :=
  (inr (Matrix 1 (replicate p [0%Z])), S p).

Definition demo_failing : Collaborators := demo_model failing_model.

Definition demo_uneven : Collaborators := demo_model uneven_model.

(** The collaborators of [demo] with NumPy from 1.24 on. *)
Definition demo_modern : Collaborators := demo_with false.

Definition zeros (n m : nat) : matrix := Matrix m (replicate n (replicate m 0%Z)).

Definition column (xs : list Z) : matrix := Matrix 1 ((λ x, [x]) <$> xs).

(** [X] at 0, [Y] at 1, [U] at 2. *)
Definition start_with (legacy : bool) (X Y U : matrix)
    : @state _ (demo_with legacy) :=
  @State _ (demo_with legacy) [Mat X; Mat Y; Mat U] 1%nat 0%nat [].

Definition start (X Y U : matrix) : state := start_with true X Y U.

Definition X0 : matrix := Matrix 2 [[1; 2]; [3; 4]]%Z.
Definition Y0 : matrix := column [0; 1]%Z.
Definition U0 : matrix := Matrix 2 [[5; 6]; [7; 8]]%Z.

(** Labels with one row more than [X0]. *)
Definition Y3 : matrix := column [0; 1; 2]%Z.

Definition s0 : state := start X0 Y0 U0.

(** Another store with the same three contents at other locations,
    after other calls, with the predictor in another hidden state. *)
Definition s0' : state :=
  State [Mat U0; Mat (zeros 1 1); Mat Y0; Mat X0] 1 7 [CallModel 0].

(** The run of [mixmatch_ot1d] on [s0] with [naug = 1]. *)
Definition run1 := run (mixmatch_ot1d 0 1 2 1%Z 7%Z 3 1) s0.

(** Lines 87-107 on [s0] with [naug = 5] and NumPy before 1.24, and
    with NumPy from 1.24 on. *)
Definition pool5 := run (build_pool 0 1 2 1%Z 5) s0.

Definition pool5_modern :=
  run (@build_pool _ (demo_with false) 0 1 2 1%Z 5) (start_with false X0 Y0 U0).

(** The store of [start], around another predictor. *)
Definition start_model (f : matrix → nat → (unit + matrix) * nat)
    (X Y U : matrix) : @state _ (demo_model f) :=
  @State _ (demo_model f) [Mat X; Mat Y; Mat U] 1%nat 0%nat [].

Definition start_modern (X Y U : matrix) : @state _ demo_modern :=
  start_with false X Y U.

(** Lines 87-91 on [s0] with [naug = 3], then lines 94-100 on the three
    copies, which are the objects 6, 8 and 10. *)
Definition s_aug : state := (run (augment 0 2 1%Z 3) s0).2.

Definition s_lab : state := (run (pseudo_labels [6; 8; 10]) s_aug).2.

(** Lines 87-107 on [s0] with [naug = 1]. *)
Definition pool1 := run (build_pool 0 1 2 1%Z 1) s0.

End Demo.

(** * Properties *)

Section Facts.
Context `{Collaborators}.

Implicit Types (s : state) (l : loc) (m : matrix) (a : ndarray).

(** ** Running computations *)

Lemma run_bind {A B} (k : A → M B) (c : M A) s :
  run (c ≫= k) s =
  match run c s with
  | (Ok a, s1) => run (k a) s1
  | (Err e, s1) => (Err e, s1)
  end.
Proof. reflexivity. Qed.

Lemma run_ret {A} (x : A) s : run (mret x) s = (Ok x, s).
Proof. reflexivity. Qed.

Lemma run_raise {A} (e : exn) s : run (raise e : M A) s = (Err e, s).
Proof. reflexivity. Qed.

Lemma run_alloc a s :
  run (alloc a) s =
  (Ok (length (heap s)), State (heap s ++ [a]) (rng s) (pst s) (trace s)).
Proof. reflexivity. Qed.

Lemma run_emit ev s :
  run (emit ev) s = (Ok (), State (heap s) (rng s) (pst s) (trace s ++ [ev])).
Proof. reflexivity. Qed.

Lemma run_with_rng {A} (f : rstate → A * rstate) s :
  run (with_rng f) s =
  (Ok (f (rng s)).1, State (heap s) (f (rng s)).2 (pst s) (trace s)).
Proof. unfold run, with_rng. by destruct (f (rng s)). Qed.

Lemma run_with_pst {A} (f : mstate → A * mstate) s :
  run (with_pst f) s =
  (Ok (f (pst s)).1, State (heap s) (rng s) (f (pst s)).2 (trace s)).
Proof. unfold run, with_pst. by destruct (f (pst s)). Qed.

Lemma run_store l a a0 s :
  heap s !! l = Some a0 →
  run (store l a) s =
  (Ok (), State (<[l:=a]> (heap s)) (rng s) (pst s) (trace s ++ [Write l])).
Proof. unfold run, store. by intros ->. Qed.

Lemma bind_ok_inv {A B} (k : A → M B) (c : M A) s b s' :
  run (c ≫= k) s = (Ok b, s') →
  ∃ x s1, run c s = (Ok x, s1) ∧ run (k x) s1 = (Ok b, s').
Proof.
  rewrite run_bind. destruct (run c s) as [[x|e] s1]; [eauto | discriminate].
Qed.

Lemma load_ok_inv l a s s' :
  run (load l) s = (Ok a, s') → s' = s ∧ heap s !! l = Some a.
Proof.
  unfold run, load. destruct (heap s !! l); [|discriminate].
  by intros [= -> ->].
Qed.

Lemma load_mat_ok_inv l m s s' :
  run (load_mat l) s = (Ok m, s') → s' = s ∧ heap s !! l = Some (Mat m).
Proof.
  unfold load_mat. intros (a & s1 & Hl & Hk)%bind_ok_inv.
  apply load_ok_inv in Hl as [-> Hl]. destruct a; [|discriminate].
  by injection Hk as -> ->.
Qed.

Lemma run_load l a s : heap s !! l = Some a → run (load l) s = (Ok a, s).
Proof. unfold run, load. by intros ->. Qed.

Lemma run_load_mat l m s :
  heap s !! l = Some (Mat m) → run (load_mat l) s = (Ok m, s).
Proof. intros Hl. unfold load_mat. by rewrite run_bind, (run_load _ _ _ Hl). Qed.

Ltac run_simpl :=
  repeat first
    [ rewrite run_bind | rewrite run_ret | rewrite run_raise
    | rewrite run_alloc | rewrite run_emit | rewrite run_with_rng
    | rewrite run_with_pst
    | progress cbn [heap rng pst trace fst snd shape] ].

(** ** Noise *)

Lemma normal_row_length sd k g : length (normal_row sd k g).1 = k.
Proof.
  revert g. induction k as [|k IH]; intros g; cbn; [done|].
  destruct (normal sd g) as [x g1]. specialize (IH g1).
  destruct (normal_row sd k g1) as [xs g2]. cbn in *. by rewrite IH.
Qed.

Lemma normal_rows_length sd n k g : length (normal_rows sd n k g).1 = n.
Proof.
  revert g. induction n as [|n IH]; intros g; cbn; [done|].
  destruct (normal_row sd k g) as [r g1]. specialize (IH g1).
  destruct (normal_rows sd n k g1) as [rs g2]. cbn in *. by rewrite IH.
Qed.

Lemma normal_rows_wf sd n k g :
  Forall (λ r, length r = k) (normal_rows sd n k g).1.
Proof.
  revert g. induction n as [|n IH]; intros g; cbn; [constructor|].
  pose proof (normal_row_length sd k g) as Hr.
  destruct (normal_row sd k g) as [r g1]. specialize (IH g1).
  destruct (normal_rows sd n k g1) as [rs g2]. cbn in *. by constructor.
Qed.

Lemma noise_of_shape x sd g : shape (noise_of x sd g) = shape x.
Proof. unfold shape, nrows, noise_of. cbn. by rewrite normal_rows_length. Qed.

Lemma madd_noise_shape x sd g : shape (madd x (noise_of x sd g)) = shape x.
Proof.
  unfold shape, nrows, madd, noise_of. cbn.
  rewrite length_zip_with, normal_rows_length. unfold nrows. f_equal. lia.
Qed.

Lemma madd_noise_wf x sd g : wf_matrix x → wf_matrix (madd x (noise_of x sd g)).
Proof.
  unfold wf_matrix, madd, noise_of. cbn. intros Hx.
  pose proof (normal_rows_wf sd (nrows x) (ncols x) g) as Hn.
  revert Hn. generalize (normal_rows sd (nrows x) (ncols x) g).1.
  induction Hx as [|r rs Hr Hx IH]; intros [|d ds] Hn; cbn; try constructor.
  - apply Forall_cons in Hn as [Hd _]. rewrite length_zip_with. lia.
  - apply Forall_cons in Hn as [_ Hn]. by apply IH.
Qed.

Lemma run_add_noise X x sd s :
  heap s !! X = Some (Mat x) →
  run (add_noise X sd) s =
  if flt sd fzero then (Err ValueError, s)
  else
    (Ok (S (length (heap s))),
     State (heap s ++ [Mat (noise_of x sd (rng s));
                       Mat (madd x (noise_of x sd (rng s)))])
           (noise_rng x sd (rng s)) (pst s) (trace s)).
Proof.
  intros HX. unfold add_noise, generate_noise.
  rewrite !run_bind, (run_load_mat _ _ _ HX).
  unfold np_random_normal. destruct (flt sd fzero); [done|].
  run_simpl. fold (noise_of x sd (rng s)).
  unfold ndarray_add. rewrite run_bind, run_load_mat with (m := x); last first.
  { cbn. by apply lookup_app_l_Some. }
  rewrite run_bind, run_load_mat with (m := noise_of x sd (rng s)); last first.
  { cbn. by rewrite list_lookup_middle. }
  rewrite decide_True by (by rewrite noise_of_shape).
  run_simpl. rewrite length_app, <-app_assoc. cbn.
  do 2 f_equal. lia.
Qed.

Lemma mapM_nil {A B} (f : A → M B) : mapM f [] = mret [].
Proof. reflexivity. Qed.

Lemma mapM_cons {A B} (f : A → M B) x xs :
  mapM f (x :: xs) = (y ← f x; k ← mapM f xs; mret (y :: k)).
Proof. reflexivity. Qed.

Lemma length_copy_locs base k : length (copy_locs base k) = k.
Proof. revert base. induction k; intros; cbn; [done | by f_equal]. Qed.

Lemma length_noisy_copies x sd k g : length (noisy_copies x sd k g) = k.
Proof. revert g. induction k; intros; cbn; [done | by f_equal]. Qed.

Lemma length_noisy_objects x sd k g : length (noisy_objects x sd k g) = 2 * k.
Proof. revert g. induction k as [|k IH]; intros; cbn; [done|]. rewrite IH. lia. Qed.

Lemma last_copy_locs base k :
  last (copy_locs base (S k)) = Some (base + 2 * k + 1).
Proof.
  revert base. induction k as [|k IH]; intros base.
  - cbn. f_equal. lia.
  - change (copy_locs base (S (S k)))
      with (S base :: copy_locs (S (S base)) (S k)).
    rewrite last_cons, IH. f_equal. lia.
Qed.

Lemma noisy_copies_shape x sd k g :
  Forall (λ m, shape m = shape x) (noisy_copies x sd k g).
Proof.
  revert g. induction k as [|k IH]; intros; cbn; constructor; [|done].
  apply madd_noise_shape.
Qed.

(** Where the copies are found once they have been made. *)
Lemma copy_locs_lookup (h : list ndarray) x sd k g :
  Forall2 (λ l m, (h ++ noisy_objects x sd k g) !! l = Some (Mat m))
    (copy_locs (length h) k) (noisy_copies x sd k g).
Proof.
  revert h g. induction k as [|k IH]; intros h g; cbn; constructor.
  - rewrite lookup_app_r by lia.
    by replace (S (length h) - length h) with 1 by lia.
  - specialize (IH (h ++ [Mat (noise_of x sd g); Mat (madd x (noise_of x sd g))])
      (noise_rng x sd g)).
    rewrite length_app, <-app_assoc in IH. cbn in IH.
    by replace (length h + 2) with (S (S (length h))) in IH by lia.
Qed.

Lemma run_noisy_copies X x sd (zs : list Z) s :
  heap s !! X = Some (Mat x) →
  flt sd fzero = false →
  run (mapM (λ _ : Z, add_noise X sd) zs) s =
  (Ok (copy_locs (length (heap s)) (length zs)),
   State (heap s ++ noisy_objects x sd (length zs) (rng s))
         (noisy_rng x sd (length zs) (rng s)) (pst s) (trace s)).
Proof.
  intros HX Hsd. revert s HX.
  induction zs as [|z zs IH]; intros s HX.
  - rewrite mapM_nil, run_ret. cbn. rewrite app_nil_r. by destruct s.
  - rewrite mapM_cons, run_bind, (run_add_noise _ x) by done.
    rewrite Hsd, run_bind, IH; last first.
    { cbn. by apply lookup_app_l_Some. }
    run_simpl. rewrite length_app, <-app_assoc. cbn.
    by replace (length (heap s) + 2) with (S (S (length (heap s)))) by lia.
Qed.

Lemma length_py_range K : length (py_range K) = Z.to_nat K.
Proof. unfold py_range. by rewrite length_fmap, length_seq. Qed.

Lemma run_noisy_augment X x sd K s :
  heap s !! X = Some (Mat x) →
  flt sd fzero = false →
  run (noisy_augment X sd K) s =
  (Ok (copy_locs (length (heap s)) (Z.to_nat K)),
   State (heap s ++ noisy_objects x sd (Z.to_nat K) (rng s))
         (noisy_rng x sd (Z.to_nat K) (rng s)) (pst s) (trace s)).
Proof.
  intros HX Hsd. unfold noisy_augment.
  by rewrite (run_noisy_copies _ x), length_py_range.
Qed.

Lemma run_noisy_augment_empty X sd K s :
  (K < 1)%Z → run (noisy_augment X sd K) s = (Ok [], s).
Proof.
  intros HK. unfold noisy_augment, py_range.
  by replace (Z.to_nat K) with 0 by lia.
Qed.

(** ** Lines 87-91 *)

Lemma run_py_last {A} (xs : list A) x s :
  last xs = Some x → run (py_last xs) s = (Ok x, s).
Proof. unfold py_last. by intros ->. Qed.

Lemma run_augment_empty X U x sd naug s :
  heap s !! X = Some (Mat x) →
  flt sd fzero = false →
  (naug < 1)%Z →
  run (augment X U sd naug) s =
  (Err IndexError,
   State (heap s ++ [Mat (noise_of x sd (rng s));
                     Mat (madd x (noise_of x sd (rng s)))])
         (noise_rng x sd (rng s)) (pst s) (trace s)).
Proof.
  intros HX Hsd Hn. unfold augment.
  rewrite run_bind, (run_add_noise _ x), Hsd by done.
  by rewrite run_bind, run_noisy_augment_empty by done.
Qed.

Lemma run_augment X U x u sd naug s :
  heap s !! X = Some (Mat x) →
  heap s !! U = Some (Mat u) →
  flt sd fzero = false →
  (1 ≤ naug)%Z →
  run (augment X U sd naug) s =
  (Ok (S (length (heap s)),
       copy_locs (S (S (length (heap s)))) (Z.to_nat naug),
       length (heap s) + 2 * Z.to_nat naug + 1),
   State (heap s ++ augment_objects x u sd (Z.to_nat naug) (rng s))
         (noisy_rng u sd (Z.to_nat naug) (noise_rng x sd (rng s)))
         (pst s) (trace s)).
Proof.
  intros HX HU Hsd Hn. unfold augment, augment_objects.
  rewrite run_bind, (run_add_noise _ x), Hsd by done.
  rewrite run_bind, (run_noisy_augment _ u); [|by apply lookup_app_l_Some|done].
  cbn [heap rng pst trace]. rewrite length_app. cbn [length].
  replace (length (heap s) + 2) with (S (S (length (heap s)))) by lia.
  destruct (Z.to_nat naug) as [|k] eqn:Hk; [lia|].
  rewrite run_bind, (run_py_last _ _ _ (last_copy_locs _ k)), run_ret.
  rewrite <-app_assoc. do 3 f_equal. lia.
Qed.

Lemma augment_ok_inv X U x u sd naug r s s' :
  heap s !! X = Some (Mat x) →
  heap s !! U = Some (Mat u) →
  run (augment X U sd naug) s = (Ok r, s') →
  (1 ≤ naug)%Z ∧ flt sd fzero = false.
Proof.
  intros HX HU Hrun.
  destruct (flt sd fzero) eqn:Hsd.
  { unfold augment in Hrun.
    by rewrite run_bind, (run_add_noise _ x), Hsd in Hrun. }
  destruct (Z_lt_le_dec naug 1) as [Hn|Hn]; [|done].
  by rewrite (run_augment_empty _ _ x) in Hrun.
Qed.

(** ** Lines 94-100 *)

Lemma holds_app h h' ls ms : holds h ls ms → holds (h ++ h') ls ms.
Proof.
  unfold holds. intros Hh. eapply Forall2_impl; [exact Hh|].
  cbn. intros l m Hl. by apply lookup_app_l_Some.
Qed.

Lemma holds_seq h ms : holds (h ++ (Mat <$> ms)) (seq (length h) (length ms)) ms.
Proof.
  revert h. induction ms as [|m ms IH]; intros h; cbn; constructor.
  - by rewrite list_lookup_middle.
  - specialize (IH (h ++ [Mat m])).
    rewrite length_app, <-app_assoc in IH. cbn in IH.
    by replace (length h + 1) with (S (length h)) in IH by lia.
Qed.

Lemma predict_all_length ms p ts p' :
  predict_all ms p = (inr ts, p') → length ts = length ms.
Proof.
  revert p ts. induction ms as [|m ms IH]; intros p ts; cbn.
  - by intros [= <- <-].
  - destruct (model m p) as [[e|t] p1]; [done|].
    destruct (predict_all ms p1) as [[e|ts'] p2] eqn:Hp; [done|].
    intros [= <- <-]. cbn. f_equal. by eapply IH.
Qed.

Lemma run_modeln l m s :
  heap s !! l = Some (Mat m) →
  run (modeln l) s =
  match model m (pst s) with
  | (inl e, p1) =>
      (Err (Raised e), State (heap s) (rng s) p1 (trace s ++ [CallModel l]))
  | (inr t, p1) =>
      (Ok (length (heap s)),
       State (heap s ++ [Mat t]) (rng s) p1 (trace s ++ [CallModel l]))
  end.
Proof.
  intros Hl. unfold modeln. rewrite run_bind, (run_load_mat _ _ _ Hl).
  run_simpl. by destruct (model m (pst s)) as [[e|t] p1].
Qed.

Lemma run_predictions ls ms s :
  holds (heap s) ls ms →
  match predict_all ms (pst s) with
  | (inr ts, p') =>
      run (mapM modeln ls) s =
      (Ok (seq (length (heap s)) (length ls)),
       State (heap s ++ (Mat <$> ts)) (rng s) p'
             (trace s ++ (CallModel <$> ls)))
  | (inl e, p') => ∃ s', run (mapM modeln ls) s = (Err (Raised e), s')
  end.
Proof.
  revert ms s. induction ls as [|l ls IH]; intros ms s Hh.
  - apply Forall2_nil_inv_l in Hh as ->.
    cbn. rewrite !app_nil_r. by destruct s.
  - apply Forall2_cons_inv_l in Hh as (m & ms' & Hl & Hh & ->).
    cbn [predict_all]. rewrite mapM_cons, run_bind, (run_modeln _ m) by done.
    destruct (model m (pst s)) as [[e|t] p1]; [by eexists|].
    set (s1 := State _ _ _ _).
    specialize (IH ms' s1 (holds_app _ [Mat t] _ _ Hh)). cbn in IH.
    destruct (predict_all ms' p1) as [[e|ts] p2].
    + destruct IH as [s' IH]. exists s'. by rewrite run_bind, IH.
    + rewrite run_bind, IH, run_ret. subst s1. cbn [heap rng pst trace].
      rewrite length_app, <-!app_assoc. cbn.
      by replace (length (heap s) + 1) with (S (length (heap s))) by lia.
Qed.

Lemma run_mapM_load_mat ls ms s :
  holds (heap s) ls ms → run (mapM load_mat ls) s = (Ok ms, s).
Proof.
  induction 1 as [|l m ls ms Hl Hh IH]; [done|].
  by rewrite mapM_cons, run_bind, (run_load_mat _ _ _ Hl), run_bind, IH.
Qed.

Lemma run_np_concatenate_axis1 ls ms s :
  holds (heap s) ls ms →
  run (np_concatenate_axis1 ls) s =
  match hstack ms with
  | Some q =>
      (Ok (length (heap s)),
       State (heap s ++ [Mat q]) (rng s) (pst s) (trace s))
  | None => (Err ValueError, s)
  end.
Proof.
  intros Hh. unfold np_concatenate_axis1.
  rewrite run_bind, (run_mapM_load_mat _ _ _ Hh). by destruct (hstack ms).
Qed.

Lemma run_ndarray_sort_axis1 A m s :
  heap s !! A = Some (Mat m) →
  run (ndarray_sort_axis1 A) s =
  (Ok (), State (<[A:=Mat (sort_rows m)]> (heap s)) (rng s) (pst s)
                (trace s ++ [Write A])).
Proof.
  intros HA. unfold ndarray_sort_axis1.
  by rewrite run_bind, (run_load_mat _ _ _ HA), (run_store _ _ _ _ HA).
Qed.

Lemma run_pseudo_labels ls ms s :
  holds (heap s) ls ms →
  match predict_all ms (pst s) with
  | (inl e, _) => ∃ s', run (pseudo_labels ls) s = (Err (Raised e), s')
  | (inr ts, p') =>
      match hstack ts with
      | None =>
          run (pseudo_labels ls) s =
          (Err ValueError,
           State (heap s ++ (Mat <$> ts)) (rng s) p'
                 (trace s ++ (CallModel <$> ls)))
      | Some q =>
          run (pseudo_labels ls) s =
          (Ok (length (heap s) + length ls),
           State (heap s ++ (Mat <$> ts) ++ [Mat (sort_rows q)]) (rng s) p'
                 (trace s ++ (CallModel <$> ls)
                    ++ [Write (length (heap s) + length ls)]))
      end
  end.
Proof.
  intros Hh. pose proof (run_predictions _ _ _ Hh) as Hp.
  destruct (predict_all ms (pst s)) as [[e|ts] p'] eqn:Hts.
  { destruct Hp as [s' Hp]. exists s'. unfold pseudo_labels.
    by rewrite run_bind, Hp. }
  assert (length ts = length ls) as Hlen.
  { rewrite (predict_all_length _ _ _ _ Hts). symmetry.
    by eapply Forall2_length. }
  unfold pseudo_labels. rewrite run_bind, Hp, run_bind.
  rewrite (run_np_concatenate_axis1 _ ts); last first.
  { cbn. rewrite <-Hlen. apply holds_seq. }
  destruct (hstack ts) as [q|]; [|done].
  cbn [heap rng pst trace]. rewrite length_app, length_fmap, Hlen.
  rewrite run_bind, (run_ndarray_sort_axis1 _ q); last first.
  { cbn. rewrite list_lookup_middle; [done|].
    by rewrite length_app, length_fmap, Hlen. }
  rewrite run_ret. cbn [heap rng pst trace]. do 2 f_equal.
  - rewrite insert_app_r_alt by (rewrite length_app, length_fmap; lia).
    rewrite length_app, length_fmap, Hlen, Nat.sub_diag. cbn.
    by rewrite <-app_assoc.
  - by rewrite <-app_assoc.
Qed.

(** ** Lines 103-107 *)

Lemma run_np_concatenate_axis0 A B ma mb s :
  heap s !! A = Some (Mat ma) →
  heap s !! B = Some (Mat mb) →
  run (np_concatenate_axis0 A B) s =
  if ncols ma =? ncols mb then
    (Ok (length (heap s)),
     State (heap s ++ [Mat (vstack ma mb)]) (rng s) (pst s) (trace s))
  else (Err ValueError, s).
Proof.
  intros HA HB. unfold np_concatenate_axis0.
  rewrite run_bind, (run_load_mat _ _ _ HA), run_bind, (run_load_mat _ _ _ HB).
  by destruct (ncols ma =? ncols mb).
Qed.

Lemma run_tolist A m s :
  heap s !! A = Some (Mat m) → run (tolist A) s = (Ok (rows m), s).
Proof.
  intros HA. unfold tolist. by rewrite run_bind, (run_load_mat _ _ _ HA).
Qed.

Lemma run_np_array rs s :
  run (np_array rs) s =
  match array_of rs with
  | Some a =>
      (Ok (length (heap s)), State (heap s ++ [a]) (rng s) (pst s) (trace s))
  | None => (Err ValueError, s)
  end.
Proof. unfold np_array. by destruct (array_of rs). Qed.

Lemma run_merge_pool Xh Uh Y Q xh uh y q s :
  heap s !! Xh = Some (Mat xh) →
  heap s !! Uh = Some (Mat uh) →
  heap s !! Y = Some (Mat y) →
  heap s !! Q = Some (Mat q) →
  run (merge_pool Xh Uh Y Q) s =
  if ncols xh =? ncols uh then
    match array_of (rows y ++ rows q) with
    | Some wl =>
        (Ok (length (heap s), S (length (heap s))),
         State (heap s ++ [Mat (vstack xh uh); wl]) (rng s) (pst s) (trace s))
    | None =>
        (Err ValueError,
         State (heap s ++ [Mat (vstack xh uh)]) (rng s) (pst s) (trace s))
    end
  else (Err ValueError, s).
Proof.
  intros HXh HUh HY HQ. unfold merge_pool.
  rewrite run_bind, (run_np_concatenate_axis0 _ _ xh uh) by done.
  destruct (ncols xh =? ncols uh); [|done].
  rewrite run_bind, (run_tolist _ y); [|by apply lookup_app_l_Some].
  rewrite run_bind, (run_tolist _ q); [|by apply lookup_app_l_Some].
  rewrite run_bind, run_np_array.
  destruct (array_of (rows y ++ rows q)); [|done].
  rewrite run_ret. cbn [heap rng pst trace].
  rewrite length_app, <-app_assoc. cbn.
  by replace (length (heap s) + 1) with (S (length (heap s))) by lia.
Qed.

(** ** Lines 110-119 *)

Lemma run_take_indices idx A a s :
  heap s !! A = Some a →
  run (take_indices idx A) s =
  match index_items idx a with
  | Some b =>
      (Ok (length (heap s)), State (heap s ++ [b]) (rng s) (pst s) (trace s))
  | None => (Err IndexError, s)
  end.
Proof.
  intros HA. unfold take_indices. rewrite run_bind, (run_load _ _ _ HA).
  by destruct (index_items idx a).
Qed.

Lemma run_shuffle A B a b s :
  heap s !! A = Some a →
  heap s !! B = Some b →
  run (shuffle A B) s =
  if len a =? len b then
    let idx := (random_permutation (len a) (rng s)).1 in
    let g := (random_permutation (len a) (rng s)).2 in
    match index_items idx a with
    | Some a' =>
        match index_items idx b with
        | Some b' =>
            (Ok (length (heap s), S (length (heap s))),
             State (heap s ++ [a'; b']) g (pst s) (trace s))
        | None =>
            (Err IndexError, State (heap s ++ [a']) g (pst s) (trace s))
        end
    | None => (Err IndexError, State (heap s) g (pst s) (trace s))
    end
  else (Err ValueError, s).
Proof.
  intros HA HB. unfold shuffle.
  rewrite run_bind, (run_load _ _ _ HA), run_bind, (run_load _ _ _ HB).
  destruct (len a =? len b); [|done]. run_simpl.
  rewrite (run_take_indices _ _ a) by done.
  destruct (index_items _ a) as [a'|]; [|done].
  rewrite run_bind, (run_take_indices _ _ b); [|by apply lookup_app_l_Some].
  destruct (index_items _ b) as [b'|]; [|done].
  rewrite run_ret. cbn [heap rng pst trace].
  rewrite length_app, <-app_assoc. cbn.
  by replace (length (heap s) + 1) with (S (length (heap s))) by lia.
Qed.

Lemma run_deref r a s : view (heap s) r = Some a → run (deref r) s = (Ok a, s).
Proof.
  destruct r as [l|l k|l k]; cbn.
  - apply run_load.
  - destruct (heap s !! l) as [a0|] eqn:Hl; [|done].
    intros [= <-]. by rewrite run_bind, (run_load _ _ _ Hl).
  - destruct (heap s !! l) as [a0|] eqn:Hl; [|done].
    intros [= <-]. by rewrite run_bind, (run_load _ _ _ Hl).
Qed.

Lemma run_call_mixup ra rw rla rlw va vw vla vlw alpha K s :
  view (heap s) ra = Some va →
  view (heap s) rw = Some vw →
  view (heap s) rla = Some vla →
  view (heap s) rlw = Some vlw →
  run (call_mixup ra rw rla rlw alpha K) s =
  match mixup_ot1d va vw vla vlw alpha K (rng s) with
  | (inl e, g) =>
      (Err (Raised e),
       State (heap s) g (pst s) (trace s ++ [CallMixup ra rw rla rlw alpha K]))
  | (inr (x, y), g) =>
      (Ok (length (heap s), S (length (heap s))),
       State (heap s ++ [x; y]) g (pst s)
             (trace s ++ [CallMixup ra rw rla rlw alpha K]))
  end.
Proof.
  intros Ha Hw Hla Hlw. unfold call_mixup.
  rewrite run_bind, (run_deref _ _ _ Ha), run_bind, (run_deref _ _ _ Hw).
  rewrite run_bind, (run_deref _ _ _ Hla), run_bind, (run_deref _ _ _ Hlw).
  run_simpl.
  destruct (mixup_ot1d va vw vla vlw alpha K (rng s)) as [[e|[x y]] g]; [done|].
  run_simpl. rewrite length_app, <-app_assoc. cbn.
  by replace (length (heap s) + 1) with (S (length (heap s))) by lia.
Qed.

(** ** Lines 87-107 as a whole *)

Lemma holds_last h ls ms l :
  holds h ls ms → last ls = Some l →
  ∃ m, last ms = Some m ∧ h !! l = Some (Mat m).
Proof.
  intros Hh Hl. apply Forall2_last in Hh. rewrite Hl in Hh.
  inversion Hh as [? m Hm|]; subst. by exists m.
Qed.

Lemma augment_holds (h : list ndarray) x u sd k g :
  holds (h ++ augment_objects x u sd k g)
    (copy_locs (S (S (length h))) k) (noisy_copies u sd k (noise_rng x sd g)).
Proof.
  unfold augment_objects. rewrite app_assoc.
  pose proof (copy_locs_lookup
    (h ++ [Mat (noise_of x sd g); Mat (madd x (noise_of x sd g))])
    u sd k (noise_rng x sd g)) as Hc.
  rewrite length_app in Hc. cbn [length] in Hc.
  by replace (length h + 2) with (S (S (length h))) in Hc by lia.
Qed.

Lemma augment_lookup_Xhat (h : list ndarray) x u sd k g :
  (h ++ augment_objects x u sd k g) !! S (length h)
  = Some (Mat (madd x (noise_of x sd g))).
Proof.
  rewrite lookup_app_r by lia.
  by replace (S (length h) - length h) with 1 by lia.
Qed.

Lemma length_augment_objects x u sd k g :
  length (augment_objects x u sd k g) = 2 + 2 * k.
Proof.
  unfold augment_objects. rewrite length_app, length_noisy_objects. done.
Qed.

(** The outcome of lines 87-107, from the contents [x], [y], [u] of the
    three inputs. *)
Lemma run_build_pool X Y U x y u sd naug s :
  heap s !! X = Some (Mat x) →
  heap s !! Y = Some (Mat y) →
  heap s !! U = Some (Mat u) →
  flt sd fzero = false →
  (1 ≤ naug)%Z →
  let n := length (heap s) in
  let k := Z.to_nat naug in
  let xh := madd x (noise_of x sd (rng s)) in
  let ms := noisy_copies u sd k (noise_rng x sd (rng s)) in
  let g1 := noisy_rng u sd k (noise_rng x sd (rng s)) in
  let h1 := heap s ++ augment_objects x u sd k (rng s) in
  let Ua := copy_locs (S (S n)) k in
  let Uh := n + 2 * k + 1 in
  let Qq := n + (2 + 2 * k) + k in
  ∃ uh, last ms = Some uh ∧ last Ua = Some Uh ∧
  match predict_all ms (pst s) with
  | (inl e, _) =>
      ∃ s', run (build_pool X Y U sd naug) s = (Err (Raised e), s')
  | (inr ts, p') =>
      match hstack ts with
      | None =>
          run (build_pool X Y U sd naug) s =
          (Err ValueError,
           State (h1 ++ (Mat <$> ts)) g1 p' (trace s ++ (CallModel <$> Ua)))
      | Some q =>
          let h2 := h1 ++ (Mat <$> ts) ++ [Mat (sort_rows q)] in
          let t2 := trace s ++ (CallModel <$> Ua) ++ [Write Qq] in
          if ncols xh =? ncols uh then
            match array_of (rows y ++ rows (sort_rows q)) with
            | Some wl =>
                run (build_pool X Y U sd naug) s =
                (Ok (Locals (S n) Ua Uh Qq (S Qq) (S (S Qq))),
                 State (h2 ++ [Mat (vstack xh uh); wl]) g1 p' t2)
            | None =>
                run (build_pool X Y U sd naug) s =
                (Err ValueError,
                 State (h2 ++ [Mat (vstack xh uh)]) g1 p' t2)
            end
          else
            run (build_pool X Y U sd naug) s =
            (Err ValueError, State h2 g1 p' t2)
      end
  end.
Proof.
  intros HX HY HU Hsd Hn n k xh ms g1 h1 Ua Uh Qq.
  assert (holds h1 Ua ms) as Hms by apply augment_holds.
  assert (last Ua = Some Uh) as HUh.
  { subst Ua Uh k. destruct (Z.to_nat naug) as [|k] eqn:Hk; [lia|].
    rewrite last_copy_locs. f_equal. lia. }
  destruct (holds_last _ _ _ _ Hms HUh) as (uh & Huh & HUhat).
  exists uh. split; [done|]. split; [done|].
  unfold build_pool.
  rewrite run_bind, (run_augment _ _ x u) by done.
  fold n k g1 h1 Ua Uh. cbn beta iota.
  pose proof (run_pseudo_labels Ua ms (State h1 g1 (pst s) (trace s)) Hms) as Hq.
  cbn [heap rng pst trace] in Hq.
  destruct (predict_all ms (pst s)) as [[e|ts] p'] eqn:Hts.
  { destruct Hq as [s' Hq]. exists s'. by rewrite run_bind, Hq. }
  assert (length h1 + length Ua = Qq) as HQq.
  { subst h1 Ua Qq n. rewrite length_app, length_augment_objects, length_copy_locs.
    done. }
  assert (length h1 + length ts = Qq) as HQq'.
  { rewrite <-HQq, (predict_all_length _ _ _ _ Hts). f_equal.
    subst ms Ua. by rewrite length_noisy_copies, length_copy_locs. }
  rewrite HQq in Hq.
  destruct (hstack ts) as [q|]; [|by rewrite run_bind, Hq].
  rewrite run_bind, Hq. cbn beta iota.
  assert (length (h1 ++ (Mat <$> ts) ++ [Mat (sort_rows q)]) = S Qq) as Hlen2.
  { rewrite !length_app, length_fmap. cbn. lia. }
  rewrite run_bind, (run_merge_pool _ _ _ _ xh uh y (sort_rows q)); cycle 1.
  - cbn. apply lookup_app_l_Some. apply augment_lookup_Xhat.
  - cbn. by apply lookup_app_l_Some.
  - cbn. apply lookup_app_l_Some. by apply lookup_app_l_Some.
  - cbn. rewrite app_assoc. apply list_lookup_middle.
    by rewrite length_app, length_fmap.
  - cbn [heap rng pst trace].
    destruct (ncols xh =? ncols uh); [|done].
    destruct (array_of _); [|done].
    rewrite Hlen2. by rewrite run_ret, <-app_assoc.
Qed.

Lemma build_pool_needs X Y U x u sd naug v s s' :
  heap s !! X = Some (Mat x) →
  heap s !! U = Some (Mat u) →
  run (build_pool X Y U sd naug) s = (Ok v, s') →
  (1 ≤ naug)%Z ∧ flt sd fzero = false.
Proof.
  intros HX HU. unfold build_pool.
  intros ([[Xh Ua] Uh] & s1 & Ha & _)%bind_ok_inv.
  exact (augment_ok_inv X U x u sd naug _ s s1 HX HU Ha).
Qed.

Lemma build_pool_ok_inv X Y U x y u sd naug v s s' :
  heap s !! X = Some (Mat x) →
  heap s !! Y = Some (Mat y) →
  heap s !! U = Some (Mat u) →
  run (build_pool X Y U sd naug) s = (Ok v, s') →
  pool_built x y u sd naug s v s'.
Proof.
  intros HX HY HU Hrun.
  destruct (build_pool_needs _ _ _ _ _ _ _ _ _ _ HX HU Hrun) as [Hn Hsd].
  destruct (run_build_pool _ _ _ _ _ _ _ _ _ HX HY HU Hsd Hn)
    as (uh & Huh & HUh & Hp).
  cbn zeta in Hp.
  destruct (predict_all _ (pst s)) as [[e|ts] p'] eqn:Hts.
  { destruct Hp as [s1 Hp]. congruence. }
  destruct (hstack ts) as [q|] eqn:Hq; [|congruence].
  destruct (_ =? _) eqn:Hc; [|congruence].
  destruct (array_of _) as [wl|] eqn:Hwl; [|congruence].
  rewrite Hrun in Hp. injection Hp as -> ->.
  assert (length ts = Z.to_nat naug) as Hlen.
  { by rewrite (predict_all_length _ _ _ _ Hts), length_noisy_copies. }
  exists uh, ts, q, wl. cbn [heap rng pst trace Xhat Uaugs Uhat Q W Wlabels].
  repeat split; try done.
  - by apply Nat.eqb_eq.
  - by rewrite <-!app_assoc.
  - do 2 apply lookup_app_l_Some. apply augment_lookup_Xhat.
  - do 2 apply holds_app. apply augment_holds.
  - do 2 apply lookup_app_l_Some.
    pose proof (augment_holds (heap s) x u sd (Z.to_nat naug) (rng s)) as Hh.
    destruct (holds_last _ _ _ _ Hh HUh) as (m & Hm & Hl).
    rewrite Huh in Hm. by injection Hm as <-.
  - apply lookup_app_l_Some. rewrite app_assoc. apply list_lookup_middle.
    rewrite !length_app, length_augment_objects, length_fmap, Hlen. lia.
  - apply list_lookup_middle.
    rewrite !length_app, length_augment_objects, length_fmap, Hlen. cbn. lia.
  - rewrite lookup_app_r;
      rewrite !length_app, length_augment_objects, length_fmap, Hlen;
      cbn [length]; [|lia].
    match goal with |- _ !! ?i = _ => by replace i with 1 by lia end.
Qed.

(** ** Lines 110-122 as a whole *)

Lemma run_py_len A a s : heap s !! A = Some a → run (py_len A) s = (Ok (len a), s).
Proof. intros HA. unfold py_len. by rewrite run_bind, (run_load _ _ _ HA). Qed.

(** The outcome of lines 110-122, from the contents of the six arrays
    they read. *)
Lemma run_split_mixup Xh Uh Y Qq Ww Wl xh uh y q w wl alpha K s :
  heap s !! Xh = Some (Mat xh) →
  heap s !! Uh = Some (Mat uh) →
  heap s !! Y = Some (Mat y) →
  heap s !! Qq = Some (Mat q) →
  heap s !! Ww = Some w →
  heap s !! Wl = Some wl →
  let n := length (heap s) in
  run (split_mixup Xh Uh Y Qq Ww Wl alpha K) s =
  if len w =? len wl then
    let idx := (random_permutation (len w) (rng s)).1 in
    let g1 := (random_permutation (len w) (rng s)).2 in
    match index_items idx w with
    | None => (Err IndexError, State (heap s) g1 (pst s) (trace s))
    | Some w' =>
        match index_items idx wl with
        | None => (Err IndexError, State (heap s ++ [w']) g1 (pst s) (trace s))
        | Some wl' =>
            let l := len w' `div` 2 in
            let c1 := CallMixup (Whole Xh) (Upto n l) (Whole Y) (Upto (S n) l)
                        alpha K in
            let c2 := CallMixup (Whole Uh) (From n l) (Whole Qq) (From (S n) l)
                        alpha K in
            match mixup_ot1d (Mat xh) (slice_to l w') (Mat y) (slice_to l wl')
                    alpha K g1 with
            | (inl e, g2) =>
                (Err (Raised e),
                 State (heap s ++ [w'; wl']) g2 (pst s) (trace s ++ [c1]))
            | (inr (x', y'), g2) =>
                match mixup_ot1d (Mat uh) (slice_from l w') (Mat q)
                        (slice_from l wl') alpha K g2 with
                | (inl e, g3) =>
                    (Err (Raised e),
                     State (heap s ++ [w'; wl'; x'; y']) g3 (pst s)
                           (trace s ++ [c1; c2]))
                | (inr (u', q'), g3) =>
                    (Ok (n + 2, n + 3, n + 4, n + 5),
                     State (heap s ++ [w'; wl'; x'; y'; u'; q']) g3 (pst s)
                           (trace s ++ [c1; c2]))
                end
            end
        end
    end
  else (Err ValueError, s).
Proof.
  intros HXh HUh HY HQ HW HWl n. unfold split_mixup.
  rewrite run_bind, (run_shuffle _ _ w wl) by done.
  destruct (len w =? len wl); [|done]. cbn zeta.
  destruct (index_items _ w) as [w'|]; [|done].
  destruct (index_items _ wl) as [wl'|]; [|done]. cbn beta iota.
  rewrite run_bind, (run_py_len _ w'); [|by cbn; rewrite list_lookup_middle].
  fold n. set (l := len w' `div` 2). set (g1 := (random_permutation _ _).2).
  rewrite run_bind.
  rewrite (run_call_mixup _ _ _ _
    (Mat xh) (slice_to l w') (Mat y) (slice_to l wl')); cycle 1.
  { cbn. by apply lookup_app_l_Some. }
  { cbn. fold n. by rewrite list_lookup_middle. }
  { cbn. by apply lookup_app_l_Some. }
  { cbn. fold n. rewrite lookup_app_r by (unfold n; lia).
    by replace (S n - length (heap s)) with 1 by (unfold n; lia). }
  cbn [heap rng pst trace].
  destruct (mixup_ot1d (Mat xh) _ _ _ alpha K g1) as [[e|[x' y']] g2]; [done|].
  cbn beta iota. rewrite run_bind.
  rewrite (run_call_mixup _ _ _ _
    (Mat uh) (slice_from l w') (Mat q) (slice_from l wl')); cycle 1.
  { cbn. rewrite <-app_assoc. by apply lookup_app_l_Some. }
  { cbn. fold n. rewrite <-app_assoc. cbn [app]. by rewrite list_lookup_middle. }
  { cbn. rewrite <-app_assoc. by apply lookup_app_l_Some. }
  { cbn. fold n. rewrite <-app_assoc, lookup_app_r by (unfold n; lia).
    by replace (S n - length (heap s)) with 1 by (unfold n; lia). }
  cbn [heap rng pst trace].
  destruct (mixup_ot1d (Mat uh) _ _ _ alpha K g2) as [[e|[u' q']] g3].
  { by rewrite <-!app_assoc. }
  cbn beta iota. rewrite run_ret, !length_app, <-!app_assoc. cbn [length app].
  unfold n. repeat (f_equal; try lia).
Qed.

(** ** What any run leaves untouched *)

Lemma readonly_framed {A} (c : M A) : readonly c → framed c.
Proof.
  intros Hc s r s' ->%Hc. split; [done|]. exists []. by rewrite app_nil_r.
Qed.

Lemma readonly_ret {A} (x : A) : readonly (mret x).
Proof. by intros s r s' [= _ <-]. Qed.

Lemma readonly_raise {A} e : readonly (raise e : M A).
Proof. by intros s r s' [= _ <-]. Qed.

Lemma readonly_bind {A B} (c : M A) (k : A → M B) :
  readonly c → (∀ x, readonly (k x)) → readonly (c ≫= k).
Proof.
  intros Hc Hk s r s'. rewrite run_bind.
  destruct (run c s) as [[x|e] s1] eqn:Hrun; apply Hc in Hrun as ->.
  - apply Hk.
  - by intros [= _ <-].
Qed.

Lemma readonly_load l : readonly (load l).
Proof.
  intros s r s'. unfold run, load.
  destruct (heap s !! l); by intros [= _ <-].
Qed.

Lemma readonly_load_mat l : readonly (load_mat l).
Proof.
  apply readonly_bind; [apply readonly_load|].
  intros [m|its]; [apply readonly_ret | apply readonly_raise].
Qed.

Lemma readonly_deref r : readonly (deref r).
Proof.
  destruct r; cbn; [apply readonly_load| |];
    (apply readonly_bind; [apply readonly_load | intros; apply readonly_ret]).
Qed.

Lemma readonly_mapM {A B} (f : A → M B) xs :
  (∀ x, readonly (f x)) → readonly (mapM f xs).
Proof.
  intros Hf. induction xs as [|x xs IH]; [apply readonly_ret|].
  rewrite mapM_cons. apply readonly_bind; [done|]. intros y.
  apply readonly_bind; [done|]. intros ys. apply readonly_ret.
Qed.

Lemma readonly_py_last {A} (xs : list A) : readonly (py_last xs).
Proof.
  unfold py_last. destruct (last xs); [apply readonly_ret | apply readonly_raise].
Qed.

Lemma readonly_tolist A : readonly (tolist A).
Proof.
  apply readonly_bind; [apply readonly_load_mat | intros; apply readonly_ret].
Qed.

Lemma readonly_py_len A : readonly (py_len A).
Proof.
  apply readonly_bind; [apply readonly_load | intros; apply readonly_ret].
Qed.

Lemma fresh_write_mono s s1 ev :
  heap s `prefix_of` heap s1 → fresh_write s1 ev → fresh_write s ev.
Proof.
  intros Hp%prefix_length Hev l Hl. specialize (Hev l Hl). lia.
Qed.

Lemma framed_bind {A B} (c : M A) (k : A → M B) :
  framed c → (∀ x, framed (k x)) → framed (c ≫= k).
Proof.
  intros Hc Hk s r s'. rewrite run_bind.
  destruct (run c s) as [[x|e] s1] eqn:Hrun;
    destruct (Hc _ _ _ Hrun) as (Hh1 & t1 & Ht1 & Hf1).
  - intros (Hh2 & t2 & Ht2 & Hf2)%Hk. split; [by etrans|].
    exists (t1 ++ t2). rewrite Ht2, Ht1, app_assoc. split; [done|].
    apply Forall_app. split; [done|].
    eapply Forall_impl; [exact Hf2|]. intros ev. by apply fresh_write_mono.
  - intros [= <- <-]. eauto.
Qed.

Lemma framed_alloc a : framed (alloc a).
Proof.
  intros s r s'. rewrite run_alloc. intros [= _ <-]. cbn. split.
  - by apply prefix_app_r.
  - exists []. by rewrite app_nil_r.
Qed.

Lemma framed_with_rng {A} (f : rstate → A * rstate) : framed (with_rng f).
Proof.
  intros s r s'. rewrite run_with_rng. intros [= _ <-]. cbn. split; [done|].
  exists []. by rewrite app_nil_r.
Qed.

Lemma framed_with_pst {A} (f : mstate → A * mstate) : framed (with_pst f).
Proof.
  intros s r s'. rewrite run_with_pst. intros [= _ <-]. cbn. split; [done|].
  exists []. by rewrite app_nil_r.
Qed.

Lemma framed_emit ev : (∀ l, ev ≠ Write l) → framed (emit ev).
Proof.
  intros Hev s r s'. rewrite run_emit. intros [= _ <-]. cbn. split; [done|].
  exists [ev]. split; [done|]. constructor; [|done]. intros l Hl. by destruct (Hev l).
Qed.

Lemma framed_mapM {A B} (f : A → M B) xs :
  (∀ x, framed (f x)) → framed (mapM f xs).
Proof.
  intros Hf. induction xs as [|x xs IH]; [apply readonly_framed, readonly_ret|].
  rewrite mapM_cons. apply framed_bind; [done|]. intros y.
  apply framed_bind; [done|]. intros ys. apply readonly_framed, readonly_ret.
Qed.

Create HintDb frame discriminated.

#[local] Hint Resolve framed_alloc framed_with_rng framed_with_pst : frame.

Ltac frame :=
  repeat first
    [ solve [auto 1 with frame nocore]
    | apply framed_emit; done
    | apply readonly_framed, readonly_ret
    | apply readonly_framed, readonly_raise
    | apply readonly_framed, readonly_load_mat
    | apply readonly_framed, readonly_load
    | apply readonly_framed, readonly_deref
    | apply readonly_framed, readonly_tolist
    | apply readonly_framed, readonly_py_len
    | apply readonly_framed, readonly_py_last
    | apply framed_bind; [|intros]
    | match goal with
      | |- framed (if ?b then _ else _) => destruct b
      | |- framed (match ?x with _ => _ end) => destruct x
      end ].

Lemma framed_np_random_normal shp sd : framed (np_random_normal shp sd).
Proof. unfold np_random_normal. frame. Qed.

Lemma framed_ndarray_add A B : framed (ndarray_add A B).
Proof. unfold ndarray_add. frame. Qed.

#[local] Hint Resolve framed_np_random_normal framed_ndarray_add : frame.

Lemma framed_add_noise X sd : framed (add_noise X sd).
Proof. unfold add_noise, generate_noise. frame. Qed.

#[local] Hint Resolve framed_add_noise : frame.

Lemma framed_noisy_augment X sd K : framed (noisy_augment X sd K).
Proof. apply framed_mapM. intros _. apply framed_add_noise. Qed.

#[local] Hint Resolve framed_noisy_augment : frame.

Lemma framed_augment X U sd naug : framed (augment X U sd naug).
Proof. unfold augment. frame. Qed.

Lemma framed_modeln l : framed (modeln l).
Proof. unfold modeln. frame. Qed.

Lemma framed_np_concatenate_axis0 A B : framed (np_concatenate_axis0 A B).
Proof. unfold np_concatenate_axis0. frame. Qed.

Lemma framed_np_array rs : framed (np_array rs).
Proof. unfold np_array. frame. Qed.

#[local] Hint Resolve framed_augment framed_modeln
  framed_np_concatenate_axis0 framed_np_array : frame.

Lemma framed_merge_pool Xh Uh Y Qq : framed (merge_pool Xh Uh Y Qq).
Proof. unfold merge_pool. frame. Qed.

Lemma framed_take_indices idx A : framed (take_indices idx A).
Proof. unfold take_indices. frame. Qed.

#[local] Hint Resolve framed_merge_pool framed_take_indices : frame.

Lemma framed_shuffle A B : framed (shuffle A B).
Proof. unfold shuffle. frame. Qed.

Lemma framed_call_mixup ra rw rla rlw alpha K :
  framed (call_mixup ra rw rla rlw alpha K).
Proof. unfold call_mixup. frame. Qed.

#[local] Hint Resolve framed_shuffle framed_call_mixup : frame.

Lemma framed_split_mixup Xh Uh Y Qq Ww Wl alpha K :
  framed (split_mixup Xh Uh Y Qq Ww Wl alpha K).
Proof. unfold split_mixup. frame. Qed.

#[local] Hint Resolve framed_split_mixup : frame.

(** The in-place sort of line 100 acts on the array that line 98 has
    just created. *)
Lemma framed_concatenate_sort preds :
  framed (Qq ← np_concatenate_axis1 preds; ndarray_sort_axis1 Qq;; mret Qq).
Proof.
  intros s r s'. unfold np_concatenate_axis1. rewrite !run_bind.
  destruct (run (mapM load_mat preds) s) as [[ms|e] s1] eqn:Hms;
    apply (readonly_mapM _ _ readonly_load_mat) in Hms as ->; last first.
  { intros [= _ <-]. split; [done|]. exists []. by rewrite app_nil_r. }
  destruct (hstack ms) as [q|]; last first.
  { rewrite run_raise. intros [= _ <-]. split; [done|].
    exists []. by rewrite app_nil_r. }
  rewrite run_alloc, run_bind, (run_ndarray_sort_axis1 _ q);
    [|by cbn; rewrite list_lookup_middle].
  rewrite run_ret. cbn [heap rng pst trace]. intros [= _ <-]. cbn. split.
  - rewrite insert_app_r_alt, Nat.sub_diag by lia. by apply prefix_app_r.
  - exists [Write (length (heap s))]. split; [done|].
    constructor; [|done]. by intros l [= <-].
Qed.

#[local] Hint Resolve framed_concatenate_sort : frame.

Lemma framed_pseudo_labels ls : framed (pseudo_labels ls).
Proof.
  unfold pseudo_labels. apply framed_bind; [|intros; frame].
  apply framed_mapM. frame.
Qed.

#[local] Hint Resolve framed_pseudo_labels : frame.

Lemma framed_build_pool X Y U sd naug : framed (build_pool X Y U sd naug).
Proof. unfold build_pool. frame. Qed.

#[local] Hint Resolve framed_build_pool : frame.

Lemma framed_mixmatch_ot1d X Y U sd alpha K naug :
  framed (mixmatch_ot1d X Y U sd alpha K naug).
Proof. unfold mixmatch_ot1d. frame. Qed.

(** ** Shapes *)

Lemma nrows_hcat m1 m2 : nrows m2 = nrows m1 → nrows (hcat m1 m2) = nrows m1.
Proof. unfold nrows, hcat. cbn. rewrite length_zip_with. lia. Qed.

Lemma wf_hcat m1 m2 : wf_matrix m1 → wf_matrix m2 → wf_matrix (hcat m1 m2).
Proof.
  unfold wf_matrix, hcat. cbn. generalize (ncols m1) (ncols m2). intros c1 c2 H1.
  revert m2. induction H1 as [|r rs Hr H1 IH]; intros [c rs2] H2; cbn in *.
  { constructor. }
  destruct H2 as [|r2 rs2' Hr2 H2]; cbn; constructor.
  - rewrite length_app. lia.
  - apply (IH (Matrix c rs2') H2).
Qed.

Lemma foldl_hcat_shape m ms :
  Forall (λ t, nrows t = nrows m) ms →
  nrows (foldl hcat m ms) = nrows m ∧
  ncols (foldl hcat m ms) = ncols m + sum_list (ncols <$> ms).
Proof.
  revert m. induction ms as [|t ms IH]; intros m Hms; cbn.
  { split; [done | lia]. }
  apply Forall_cons in Hms as [Ht Hms].
  destruct (IH (hcat m t)) as [Hn Hc].
  { eapply Forall_impl; [exact Hms|]. intros t' Ht'. cbv beta in *.
    by rewrite nrows_hcat. }
  rewrite Hn, Hc, nrows_hcat by done. cbn. split; [done | lia].
Qed.

Lemma foldl_hcat_wf m ms :
  wf_matrix m → Forall wf_matrix ms → wf_matrix (foldl hcat m ms).
Proof.
  revert m. induction ms as [|t ms IH]; intros m Hm Hms; cbn; [done|].
  apply Forall_cons in Hms as [Ht Hms]. apply IH; [by apply wf_hcat | done].
Qed.

Lemma hstack_same_rows n t ts :
  Forall (λ t', nrows t' = n) (t :: ts) →
  hstack (t :: ts) = Some (foldl hcat t ts).
Proof.
  intros [Ht Hts]%Forall_cons. cbn.
  assert (forallb (λ b, nrows b =? nrows t) ts = true) as ->; [|done].
  apply forallb_forall. intros t' Ht'%list_elem_of_In.
  rewrite Forall_forall in Hts. apply Nat.eqb_eq.
  by rewrite Ht, (Hts _ Ht').
Qed.

Lemma hstack_Some_inv ts q :
  hstack ts = Some q →
  ∃ t ts', ts = t :: ts' ∧ q = foldl hcat t ts' ∧
           Forall (λ t', nrows t' = nrows t) ts'.
Proof.
  destruct ts as [|t ts']; cbn; [done|].
  destruct (forallb _ ts') eqn:Hf; [|done]. intros [= <-].
  exists t, ts'. repeat split.
  apply Forall_forall. intros t' Ht'%list_elem_of_In.
  rewrite forallb_forall in Hf. by apply Nat.eqb_eq, Hf.
Qed.

Lemma nrows_sort_rows m : nrows (sort_rows m) = nrows m.
Proof. unfold nrows, sort_rows. cbn. by rewrite length_fmap. Qed.

Lemma len_array_of rs a : array_of rs = Some a → len a = length rs.
Proof.
  unfold array_of. destruct rs as [|r rs]; [by intros [= <-]|].
  destruct (forallb _ _); [by intros [= <-]|].
  destruct legacy_ragged; [by intros [= <-] | done].
Qed.

Lemma nrows_vstack m1 m2 : nrows (vstack m1 m2) = nrows m1 + nrows m2.
Proof. unfold nrows, vstack. cbn. by rewrite length_app. Qed.

Lemma nrows_madd_noise x sd g : nrows (madd x (noise_of x sd g)) = nrows x.
Proof. by injection (madd_noise_shape x sd g). Qed.

(** ** The predictor *)

Lemma label_column_row_preserving : label_column → row_preserving.
Proof. intros Hc m p. destruct (Hc m p) as (t & p' & ? & ? & _). eauto. Qed.

Lemma predict_all_rows ms p :
  row_preserving →
  ∃ ts p', predict_all ms p = (inr ts, p') ∧
           Forall2 (λ m t, nrows t = nrows m) ms ts.
Proof.
  intros Hrp. revert p. induction ms as [|m ms IH]; intros p; cbn.
  { by exists [], p. }
  destruct (Hrp m p) as (t & p1 & -> & Ht).
  destruct (IH p1) as (ts & p2 & -> & Hts).
  exists (t :: ts), p2. split; [done|]. by constructor.
Qed.

Lemma predict_all_columns ms p :
  label_column →
  ∃ ts p', predict_all ms p = (inr ts, p') ∧
           Forall2 (λ m t, nrows t = nrows m ∧ ncols t = 1 ∧ wf_matrix t) ms ts.
Proof.
  intros Hrp. revert p. induction ms as [|m ms IH]; intros p; cbn.
  { by exists [], p. }
  destruct (Hrp m p) as (t & p1 & -> & Ht).
  destruct (IH p1) as (ts & p2 & -> & Hts).
  exists (t :: ts), p2. split; [done|]. by constructor.
Qed.

Lemma hstack_predictions u sd k g ts :
  0 < k →
  Forall2 (λ m t, nrows t = nrows m) (noisy_copies u sd k g) ts →
  ∃ q, hstack ts = Some q ∧ nrows q = nrows u.
Proof.
  intros Hk Hrows.
  assert (Forall (λ t, nrows t = nrows u) ts) as Hall.
  { pose proof (noisy_copies_shape u sd k g) as Hs.
    revert Hs. induction Hrows as [|m t ms ts' Ht Hrows IH]; [done|].
    intros [Hm Hs]%Forall_cons. constructor; [|by apply IH].
    rewrite Ht. by injection Hm. }
  destruct ts as [|t ts'].
  { apply Forall2_length in Hrows. rewrite length_noisy_copies in Hrows.
    cbn in Hrows. lia. }
  rewrite (hstack_same_rows _ _ _ Hall). eexists. split; [done|].
  apply Forall_cons in Hall as [Ht Hall].
  destruct (foldl_hcat_shape t ts') as [-> _]; [|done].
  eapply Forall_impl; [exact Hall|]. intros t' Ht'. cbv beta in *. congruence.
Qed.

Lemma sum_ncols_columns ts :
  Forall (λ t, ncols t = 1) ts → sum_list (ncols <$> ts) = length ts.
Proof. induction 1 as [|t ts Ht _ IH]; cbn; [done|]. by rewrite Ht, IH. Qed.

(** The join of [(n,1)] columns has one column per prediction. *)
Lemma hstack_columns u sd k g ts :
  0 < k →
  Forall2 (λ m t, nrows t = nrows m ∧ ncols t = 1 ∧ wf_matrix t)
    (noisy_copies u sd k g) ts →
  ∃ q, hstack ts = Some q ∧ nrows q = nrows u ∧ ncols q = k ∧ wf_matrix q.
Proof.
  intros Hk Hcols.
  assert (length ts = k) as Hlen.
  { apply Forall2_length in Hcols. by rewrite length_noisy_copies in Hcols. }
  destruct (hstack_predictions u sd k g ts Hk) as (q & Hq & Hqn).
  { eapply Forall2_impl; [exact Hcols|]. by intros m t [? _]. }
  exists q. split; [done|]. split; [done|].
  destruct (hstack_Some_inv _ _ Hq) as (t & ts' & -> & -> & Hrows).
  apply Forall2_Forall_r with (Q := λ t, ncols t = 1 ∧ wf_matrix t) in Hcols;
    last first.
  { apply Forall_true. by intros m t' [_ ?]. }
  apply Forall_cons in Hcols as [[Ht1 Htw] Hcols].
  destruct (foldl_hcat_shape t ts' Hrows) as [_ ->].
  rewrite Ht1, sum_ncols_columns.
  - cbn in Hlen. split; [lia|]. apply foldl_hcat_wf; [done|].
    eapply Forall_impl; [exact Hcols|]. by intros t' [_ ?].
  - eapply Forall_impl; [exact Hcols|]. by intros t' [? _].
Qed.

Lemma length_sort_row r : length (sort_row r) = length r.
Proof. unfold sort_row. by rewrite merge_sort_Permutation. Qed.

Lemma wf_sort_rows m : wf_matrix m → wf_matrix (sort_rows m).
Proof.
  unfold wf_matrix, sort_rows. cbn. intros Hm. apply Forall_fmap.
  eapply Forall_impl; [exact Hm|]. cbn. intros r Hr. by rewrite length_sort_row.
Qed.

Lemma sort_rows_sorted m :
  Total (λ a b : float, fle a b) →
  Forall (Sorted (λ a b : float, fle a b)) (rows (sort_rows m)).
Proof.
  intros Htot. unfold sort_rows. cbn. apply Forall_fmap, Forall_true.
  intros r. cbn. unfold sort_row. by apply Sorted_merge_sort.
Qed.

Lemma array_of_2d_inv rs wl :
  array_of rs = Some wl → is_2d wl = true →
  rs ≠ [] ∧ ∃ c, Forall (λ r, length r = c) rs.
Proof.
  unfold array_of. destruct rs as [|r rs]; [by intros [= <-]|].
  destruct (forallb _ _) eqn:Hf.
  - intros _ _. split; [done|]. exists (length r).
    apply Forall_forall. intros r' Hr'%list_elem_of_In.
    rewrite forallb_forall in Hf. by apply Nat.eqb_eq, Hf.
  - destruct legacy_ragged; [by intros [= <-] | done].
Qed.

(** ** Successful runs *)

(** What a successful run of lines 110-122 has done. *)
Lemma split_mixup_ok_inv Xh Uh Y Qq Ww Wl xh uh y q w wl alpha K out s s' :
  heap s !! Xh = Some (Mat xh) →
  heap s !! Uh = Some (Mat uh) →
  heap s !! Y = Some (Mat y) →
  heap s !! Qq = Some (Mat q) →
  heap s !! Ww = Some w →
  heap s !! Wl = Some wl →
  run (split_mixup Xh Uh Y Qq Ww Wl alpha K) s = (Ok out, s') →
  let n := length (heap s) in
  ∃ w' wl' s1 new,
    len w = len wl ∧
    run (shuffle Ww Wl) s = (Ok (n, S n), s1) ∧
    heap s1 = heap s ++ [w'; wl'] ∧
    trace s1 = trace s ∧
    heap s' = heap s1 ++ new ∧ length new = 4 ∧
    out = (n + 2, n + 3, n + 4, n + 5) ∧
    pst s' = pst s ∧
    trace s' = trace s ++
      [CallMixup (Whole Xh) (Upto n (len w' `div` 2))
         (Whole Y) (Upto (S n) (len w' `div` 2)) alpha K;
       CallMixup (Whole Uh) (From n (len w' `div` 2))
         (Whole Qq) (From (S n) (len w' `div` 2)) alpha K].
Proof.
  intros HXh HUh HY HQ HW HWl Hrun n.
  pose proof (run_shuffle _ _ _ _ _ HW HWl) as Hsh.
  rewrite (run_split_mixup _ _ _ _ _ _ _ _ _ _ _ _ alpha K _
    HXh HUh HY HQ HW HWl) in Hrun.
  destruct (len w =? len wl) eqn:Hlen; [|done]. cbn zeta in Hrun, Hsh.
  destruct (index_items _ w) as [w'|]; [|done].
  destruct (index_items _ wl) as [wl'|]; [|done].
  destruct (mixup_ot1d (Mat xh) _ _ _ _ _ _) as [[e|[x' y']] g2]; [done|].
  destruct (mixup_ot1d (Mat uh) _ _ _ _ _ _) as [[e|[u' q']] g3]; [done|].
  injection Hrun as <- <-.
  eexists w', wl', _, [x'; y'; u'; q'].
  split; [by apply Nat.eqb_eq|]. split; [exact Hsh|]. cbn [heap rng pst trace].
  rewrite <-app_assoc. done.
Qed.

(** The calls of [mixup_ot1d] that a run of lines 110-122 makes,
    whatever its outcome, once the shuffle has gone through. *)
Lemma split_mixup_calls v Y xh uh y q w wl alpha K r Ws Wls s s4 s' :
  heap s !! Xhat v = Some (Mat xh) →
  heap s !! Uhat v = Some (Mat uh) →
  heap s !! Y = Some (Mat y) →
  heap s !! Q v = Some (Mat q) →
  heap s !! W v = Some w →
  heap s !! Wlabels v = Some wl →
  run (shuffle (W v) (Wlabels v)) s = (Ok (Ws, Wls), s4) →
  run (split_mixup (Xhat v) (Uhat v) Y (Q v) (W v) (Wlabels v) alpha K) s
    = (r, s') →
  ∃ ws wls,
    heap s4 !! Ws = Some ws ∧ heap s4 !! Wls = Some wls ∧
    len ws = len wls ∧
    heap s4 `prefix_of` heap s' ∧
    trace s4 = trace s ∧
    match r with
    | Ok _ =>
        trace s' = trace s4 ++
          [first_call v Y Ws Wls (len ws `div` 2) alpha K;
           second_call v Ws Wls (len ws `div` 2) alpha K]
    | Err e =>
        (∃ e', e = Raised e') ∧
        (trace s' = trace s4 ++ [first_call v Y Ws Wls (len ws `div` 2) alpha K]
         ∨ trace s' = trace s4 ++
             [first_call v Y Ws Wls (len ws `div` 2) alpha K;
              second_call v Ws Wls (len ws `div` 2) alpha K])
    end.
Proof.
  intros HlX HlU HlY HlQ HlW HlWl Hsh Hs.
  rewrite (run_shuffle _ _ _ _ _ HlW HlWl) in Hsh.
  rewrite (run_split_mixup _ _ _ _ _ _ _ _ _ _ _ _ alpha K _
    HlX HlU HlY HlQ HlW HlWl) in Hs.
  destruct (len w =? len wl); [|done]. cbn zeta in Hsh, Hs.
  destruct (index_items _ w) as [w'|] eqn:Hw'; [|done].
  destruct (index_items _ wl) as [wl'|] eqn:Hwl'; [|done].
  injection Hsh as <- <- <-. exists w', wl'. cbn [heap trace].
  split; [by rewrite list_lookup_middle|].
  split. { rewrite lookup_app_r by lia.
           by replace (S (length (heap s)) - length (heap s)) with 1 by lia. }
  split.
  { unfold index_items in Hw', Hwl'.
    destruct (mapM _ _) as [its|] eqn:Hits in Hw'; [|done].
    destruct (mapM _ _) as [its'|] eqn:Hits' in Hwl'; [|done].
    injection Hw' as <-. injection Hwl' as <-.
    apply length_mapM in Hits, Hits'.
    destruct w, wl; cbn; unfold nrows; cbn; congruence. }
  unfold first_call, second_call.
  destruct (mixup_ot1d (Mat xh) _ _ _ _ _ _) as [[e|[x' y']] g2].
  { injection Hs as <- <-. cbn [heap trace].
    split; [done|]. split; [done|]. split; [by eexists|]. by left. }
  destruct (mixup_ot1d (Mat uh) _ _ _ _ _ _) as [[e|[u' q']] g3];
    injection Hs as <- <-; cbn [heap trace].
  - split; [by apply prefix_app, prefix_cons, prefix_cons, prefix_nil|].
    split; [done|]. split; [by eexists|]. by right.
  - split; [by apply prefix_app, prefix_cons, prefix_cons, prefix_nil|]. done.
Qed.

(** A successful run of [mixmatch_ot1d] splits into a successful run of
    lines 87-107 and one of lines 110-122. *)
Lemma mixmatch_ok_inv X Y U x y u sd alpha K naug out s s' :
  heap s !! X = Some (Mat x) →
  heap s !! Y = Some (Mat y) →
  heap s !! U = Some (Mat u) →
  run (mixmatch_ot1d X Y U sd alpha K naug) s = (Ok out, s') →
  ∃ v s3,
    run (build_pool X Y U sd naug) s = (Ok v, s3) ∧
    run (split_mixup (Xhat v) (Uhat v) Y (Q v) (W v) (Wlabels v) alpha K) s3
      = (Ok out, s') ∧
    pool_built x y u sd naug s v s3 ∧
    heap s3 !! Y = Some (Mat y).
Proof.
  intros HX HY HU (v & s3 & Hb & Hs)%bind_ok_inv.
  exists v, s3. split; [done|]. split; [done|].
  pose proof (build_pool_ok_inv _ _ _ _ _ _ _ _ _ _ _ HX HY HU Hb) as Hpb.
  split; [done|].
  destruct Hpb as (uh & ts & q & wl & _ & _ & _ & _ & _ & _ & _ & -> & _).
  by apply lookup_app_l_Some.
Qed.

(** The two results of a call of [mixup_ot1d] are the next two
    objects of the store. *)
Lemma call_mixup_ok_inv ra rw rla rlw alpha K l1 l2 s s' :
  run (call_mixup ra rw rla rlw alpha K) s = (Ok (l1, l2), s') →
  l1 = length (heap s) ∧ l2 = S (length (heap s)) ∧
  length (heap s') = S (S (length (heap s))).
Proof.
  unfold call_mixup.
  intros (va & s1 & ->%readonly_deref & H1)%bind_ok_inv.
  apply bind_ok_inv in H1 as (vw & s1 & ->%readonly_deref & H1).
  apply bind_ok_inv in H1 as (vla & s1 & ->%readonly_deref & H1).
  apply bind_ok_inv in H1 as (vlw & s1 & ->%readonly_deref & H1).
  revert H1. run_simpl.
  destruct (mixup_ot1d va vw vla vlw alpha K (rng s)) as [[e|[x y]] g]; [done|].
  run_simpl. intros [= <- <- <-]. cbn. rewrite !length_app. cbn.
  repeat split; lia.
Qed.

Lemma split_mixup_fresh Xh Uh Y Qq Ww Wl alpha K Xp Yp Up Qp s s' :
  run (split_mixup Xh Uh Y Qq Ww Wl alpha K) s = (Ok (Xp, Yp, Up, Qp), s') →
  length (heap s) ≤ Xp ∧ Xp < Yp ∧ Yp < Up ∧ Up < Qp ∧ Qp < length (heap s').
Proof.
  unfold split_mixup.
  intros ([Ws Wls] & s1 & Hsh & H1)%bind_ok_inv.
  apply framed_shuffle in Hsh as [Hsh%prefix_length _].
  apply bind_ok_inv in H1 as (n & s2 & ->%readonly_py_len & H1).
  apply bind_ok_inv in H1 as ([a b] & s2 & (-> & -> & Hl2)%call_mixup_ok_inv & H1).
  apply bind_ok_inv in H1 as ([c d] & s3 & (-> & -> & Hl3)%call_mixup_ok_inv & H1).
  injection H1 as <- <- <- <- <-. lia.
Qed.

Lemma writes_app t1 t2 : writes (t1 ++ t2) = writes t1 ++ writes t2.
Proof. apply omap_app. Qed.

Lemma writes_calls ls : writes (CallModel <$> ls) = [].
Proof. by induction ls. Qed.

(** ** Two runs *)

Lemma predict_all_deterministic ms p p' :
  deterministic_model → (predict_all ms p).1 = (predict_all ms p').1.
Proof.
  intros Hdet. revert p p'. induction ms as [|m ms IH]; intros p p'; [done|].
  cbn [predict_all]. specialize (Hdet m p p').
  destruct (model m p) as [r1 p1], (model m p') as [r2 p1'].
  cbn in Hdet. subst r2. destruct r1 as [e|t]; [done|].
  specialize (IH p1 p1').
  destruct (predict_all ms p1) as [r1 p2], (predict_all ms p1') as [r2 p2'].
  cbn in IH. subst r2. by destruct r1.
Qed.

(** Lines 87-107 in two stores that hold the same contents for the
    three inputs, with the same generator. *)
Lemma build_pool_deterministic X1 Y1 U1 X2 Y2 U2 x y u sd naug s1 s2 :
  heap s1 !! X1 = Some (Mat x) → heap s2 !! X2 = Some (Mat x) →
  heap s1 !! Y1 = Some (Mat y) → heap s2 !! Y2 = Some (Mat y) →
  heap s1 !! U1 = Some (Mat u) → heap s2 !! U2 = Some (Mat u) →
  rng s1 = rng s2 →
  deterministic_model →
  match run (build_pool X1 Y1 U1 sd naug) s1,
        run (build_pool X2 Y2 U2 sd naug) s2 with
  | (Ok v1, t1), (Ok v2, t2) =>
      rng t1 = rng t2 ∧
      ∃ xh uh q w wl,
        heap t1 !! Xhat v1 = Some (Mat xh) ∧ heap t2 !! Xhat v2 = Some (Mat xh) ∧
        heap t1 !! Uhat v1 = Some (Mat uh) ∧ heap t2 !! Uhat v2 = Some (Mat uh) ∧
        heap t1 !! Y1 = Some (Mat y) ∧ heap t2 !! Y2 = Some (Mat y) ∧
        heap t1 !! Q v1 = Some (Mat q) ∧ heap t2 !! Q v2 = Some (Mat q) ∧
        heap t1 !! W v1 = Some w ∧ heap t2 !! W v2 = Some w ∧
        heap t1 !! Wlabels v1 = Some wl ∧ heap t2 !! Wlabels v2 = Some wl
  | (Err e1, _), (Err e2, _) => e1 = e2
  | _, _ => False
  end.
Proof.
  intros HX1 HX2 HY1 HY2 HU1 HU2 Hg Hdet.
  destruct (flt sd fzero) eqn:Hsd.
  { unfold build_pool, augment.
    by rewrite !run_bind, (run_add_noise _ x), (run_add_noise X2 x), Hsd. }
  destruct (Z_lt_le_dec naug 1) as [Hn|Hn].
  { unfold build_pool.
    by rewrite !run_bind, (run_augment_empty _ _ x),
      (run_augment_empty X2 _ x). }
  destruct (run_build_pool _ _ _ _ _ _ _ _ _ HX1 HY1 HU1 Hsd Hn)
    as (uh & Huh & _ & Hp1).
  destruct (run_build_pool _ _ _ _ _ _ _ _ _ HX2 HY2 HU2 Hsd Hn)
    as (uh' & Huh' & _ & Hp2).
  cbn zeta in Hp1, Hp2. rewrite <-Hg in Huh', Hp2.
  rewrite Huh in Huh'. injection Huh' as <-.
  pose proof (predict_all_deterministic
    (noisy_copies u sd (Z.to_nat naug) (noise_rng x sd (rng s1)))
    (pst s1) (pst s2) Hdet) as Hpd.
  destruct (predict_all _ (pst s1)) as [r1 p1] eqn:Hpa1.
  destruct (predict_all _ (pst s2)) as [r2 p2] eqn:Hpa2.
  cbn in Hpd. subst r2. destruct r1 as [e|ts].
  { by destruct Hp1 as [t1 ->], Hp2 as [t2 ->]. }
  destruct (hstack ts) as [q|] eqn:Hq; [|by rewrite Hp1, Hp2].
  destruct (_ =? _) eqn:Hc; [|by rewrite Hp1, Hp2].
  destruct (array_of _) as [wl|] eqn:Hwl; [|by rewrite Hp1, Hp2].
  destruct (build_pool_ok_inv _ _ _ _ _ _ _ _ _ _ _ HX1 HY1 HU1 Hp1)
    as (uh1 & ts1 & q1 & wl1 & F1 & G1 & I1 & _ & J1 & _ & _ & Hh1 & _ & _
        & A1 & _ & B1 & C1 & D1 & E1).
  destruct (build_pool_ok_inv _ _ _ _ _ _ _ _ _ _ _ HX2 HY2 HU2 Hp2)
    as (uh2 & ts2 & q2 & wl2 & F2 & G2 & I2 & _ & J2 & _ & _ & Hh2 & _ & _
        & A2 & _ & B2 & C2 & D2 & E2).
  rewrite <-Hg in *.
  rewrite Huh in F1, F2. injection F1 as <-. injection F2 as <-.
  rewrite Hpa1 in G1. rewrite Hpa2 in G2. injection G1 as <-. injection G2 as <-.
  rewrite Hq in I1, I2. injection I1 as <-. injection I2 as <-.
  rewrite Hwl in J1, J2. injection J1 as <-. injection J2 as <-.
  rewrite Hp1, Hp2. cbn [heap rng pst trace Xhat Uhat Q W Wlabels] in *.
  split; [done|]. eexists _, _, _, _, _.
  split; [exact A1|]. split; [exact A2|].
  split; [exact B1|]. split; [exact B2|].
  split; [rewrite Hh1; by apply lookup_app_l_Some|].
  split; [rewrite Hh2; by apply lookup_app_l_Some|].
  split; [exact C1|]. split; [exact C2|].
  split; [exact D1|]. split; [exact D2|].
  split; [exact E1 | exact E2].
Qed.

Lemma lookup_app_plus (h k : list ndarray) i :
  (h ++ k) !! (length h + i) = k !! i.
Proof. rewrite lookup_app_r by lia. f_equal. lia. Qed.

(** Lines 110-122 in two stores that hold the same contents for the
    six arrays read, with the same generator. *)
Lemma split_mixup_deterministic
    Xh1 Uh1 Y1 Q1 W1 Wl1 Xh2 Uh2 Y2 Q2 W2 Wl2 xh uh y q w wl alpha K s1 s2 :
  heap s1 !! Xh1 = Some (Mat xh) → heap s2 !! Xh2 = Some (Mat xh) →
  heap s1 !! Uh1 = Some (Mat uh) → heap s2 !! Uh2 = Some (Mat uh) →
  heap s1 !! Y1 = Some (Mat y) → heap s2 !! Y2 = Some (Mat y) →
  heap s1 !! Q1 = Some (Mat q) → heap s2 !! Q2 = Some (Mat q) →
  heap s1 !! W1 = Some w → heap s2 !! W2 = Some w →
  heap s1 !! Wl1 = Some wl → heap s2 !! Wl2 = Some wl →
  rng s1 = rng s2 →
  observe (run (split_mixup Xh1 Uh1 Y1 Q1 W1 Wl1 alpha K) s1) =
  observe (run (split_mixup Xh2 Uh2 Y2 Q2 W2 Wl2 alpha K) s2).
Proof.
  intros A1 A2 B1 B2 C1 C2 D1 D2 E1 E2 F1 F2 Hg.
  rewrite (run_split_mixup _ _ _ _ _ _ _ _ _ _ _ _ alpha K _ A1 B1 C1 D1 E1 F1).
  rewrite (run_split_mixup _ _ _ _ _ _ _ _ _ _ _ _ alpha K _ A2 B2 C2 D2 E2 F2).
  rewrite <-Hg. destruct (len w =? len wl); [|done]. cbn zeta.
  destruct (index_items _ w) as [w'|]; [|done].
  destruct (index_items _ wl) as [wl'|]; [|done].
  destruct (mixup_ot1d (Mat xh) _ _ _ _ _ _) as [[e|[x' y']] g2]; [done|].
  destruct (mixup_ot1d (Mat uh) _ _ _ _ _ _) as [[e|[u' q']] g3]; [done|].
  cbn [observe heap]. by rewrite !lookup_app_plus.
Qed.

(** ** The claims *)

(** A negative scale is refused by line 87, before anything else
    happens; the claims below are about scales that are not negative. *)
Lemma mixmatch_negative_scale X Y U x sd alpha K naug s :
  heap s !! X = Some (Mat x) →
  flt sd fzero = true →
  run (mixmatch_ot1d X Y U sd alpha K naug) s = (Err ValueError, s).
Proof.
  intros HX Hsd. unfold mixmatch_ot1d, build_pool, augment.
  by rewrite !run_bind, (run_add_noise _ x), Hsd.
Qed.


(** C2: in a run of [mixmatch_ot1d] that returns, with
    [len(X) == len(Y) == len(U)] and a predictor that returns one label
    row per input row, the pool built by lines 103-107 has
    [len(W) == len(Xhat) + len(Uhat)], [len(Wlabels) == len(Y) + len(Q)]
    and [len(W) == len(Wlabels)] in the state in which line 110 starts. *)
Theorem pool_row_counts X Y U x y u sd alpha K naug out s s' :
  heap s !! X = Some (Mat x) →
  heap s !! Y = Some (Mat y) →
  heap s !! U = Some (Mat u) →
  nrows x = nrows y →
  nrows y = nrows u →
  row_preserving →
  run (mixmatch_ot1d X Y U sd alpha K naug) s = (Ok out, s') →
  ∃ v s3 xh uh y3 q w wl,
    run (build_pool X Y U sd naug) s = (Ok v, s3) ∧
    run (split_mixup (Xhat v) (Uhat v) Y (Q v) (W v) (Wlabels v) alpha K) s3
      = (Ok out, s') ∧
    heap s3 !! Xhat v = Some xh ∧
    heap s3 !! Uhat v = Some uh ∧
    heap s3 !! Y = Some y3 ∧
    heap s3 !! Q v = Some q ∧
    heap s3 !! W v = Some w ∧
    heap s3 !! Wlabels v = Some wl ∧
    len w = len xh + len uh ∧
    len wl = len y3 + len q ∧
    len w = len wl.
Proof.
  intros HX HY HU Hxy Hyu Hrp Hrun.
  destruct (mixmatch_ok_inv _ _ _ _ _ _ _ _ _ _ _ _ _ HX HY HU Hrun)
    as (v & s3 & Hb & Hs & Hpb & HY3).
  destruct (build_pool_needs _ _ _ _ _ _ _ _ _ _ HX HU Hb) as [Hn Hsd].
  destruct Hpb as (uh & ts & q & wl & Huh & Hts & Hq & _ & Hwl & _ & _ & _ & _
                   & _ & HlX & _ & HlU & HlQ & HlW & HlWl).
  destruct (predict_all_rows
    (noisy_copies u sd (Z.to_nat naug) (noise_rng x sd (rng s))) (pst s) Hrp)
    as (ts' & p' & Hts' & Hrows).
  rewrite Hts in Hts'. injection Hts' as <- _.
  destruct (hstack_predictions u sd (Z.to_nat naug) _ ts ltac:(lia) Hrows)
    as (q' & Hq' & Hqn).
  rewrite Hq in Hq'. injection Hq' as <-.
  assert (nrows uh = nrows u) as Huhn.
  { pose proof (noisy_copies_shape u sd (Z.to_nat naug)
      (noise_rng x sd (rng s))) as Hsh.
    apply last_Some_elem_of in Huh. rewrite Forall_forall in Hsh.
    by injection (Hsh _ Huh). }
  eexists v, s3, _, _, _, _, _, _.
  do 8 (split; [done|]). cbn [len].
  rewrite (len_array_of _ _ Hwl), nrows_vstack, nrows_madd_noise, length_app.
  fold (nrows y) (nrows (sort_rows q)). rewrite nrows_sort_rows.
  repeat split; lia.
Qed.

(** Lines 87-100 with a predictor that answers with [(n,1)] columns. *)
Lemma pseudo_labels_columns X U x u sd naug s :
  heap s !! X = Some (Mat x) →
  heap s !! U = Some (Mat u) →
  flt sd fzero = false →
  (1 ≤ naug)%Z →
  label_column →
  ∃ Xh Ua Uh s1 Qq s2 q uh,
    run (augment X U sd naug) s = (Ok (Xh, Ua, Uh), s1) ∧
    run (pseudo_labels Ua) s1 = (Ok Qq, s2) ∧
    heap s `prefix_of` heap s2 ∧
    heap s2 !! Xh = Some (Mat (madd x (noise_of x sd (rng s)))) ∧
    heap s2 !! Uh = Some (Mat uh) ∧
    heap s2 !! Qq = Some (Mat (sort_rows q)) ∧
    nrows q = nrows u ∧ ncols q = Z.to_nat naug ∧ wf_matrix q.
Proof.
  intros HX HU Hsd Hn Hcol.
  pose proof (run_augment _ _ _ _ _ _ _ HX HU Hsd Hn) as Ha.
  set (ms := noisy_copies u sd (Z.to_nat naug) (noise_rng x sd (rng s))).
  destruct (predict_all_columns ms (pst s) Hcol) as (ts & p' & Hts & Hcols).
  destruct (hstack_columns u sd (Z.to_nat naug) _ ts ltac:(lia) Hcols)
    as (q & Hq & Hqn & Hqc & Hqw).
  pose proof (augment_holds (heap s) x u sd (Z.to_nat naug) (rng s)) as Hh.
  pose proof (run_pseudo_labels _ ms
    (State (heap s ++ augment_objects x u sd (Z.to_nat naug) (rng s))
           (noisy_rng u sd (Z.to_nat naug) (noise_rng x sd (rng s)))
           (pst s) (trace s)) Hh) as Hp.
  cbn [heap rng pst trace] in Hp. rewrite Hts, Hq in Hp.
  assert (last (copy_locs (S (S (length (heap s)))) (Z.to_nat naug))
          = Some (length (heap s) + 2 * Z.to_nat naug + 1)) as HUh.
  { destruct (Z.to_nat naug) as [|k] eqn:Hk; [lia|].
    rewrite last_copy_locs. f_equal. lia. }
  destruct (holds_last _ _ _ _ Hh HUh) as (uh & _ & HlU).
  eexists _, _, _, _, _, _, q, uh.
  split; [exact Ha|]. split; [exact Hp|]. cbn [heap].
  split; [rewrite <-app_assoc; by apply prefix_app_r|].
  split; [apply lookup_app_l_Some, augment_lookup_Xhat|].
  split; [by apply lookup_app_l_Some|].
  split; [|done].
  rewrite app_assoc. apply list_lookup_middle.
  rewrite (length_app _ (Mat <$> ts)), length_fmap, length_copy_locs. f_equal.
  apply Forall2_length in Hcols. unfold ms in Hcols.
  by rewrite length_noisy_copies in Hcols.
Qed.


(** The calls of [mixup_ot1d] that a run of lines 110-122 makes,
    whatever its outcome, and their anchors. *)
Lemma split_mixup_anchors v Y xh uh y q w wl alpha K r s s' :
  heap s !! Xhat v = Some (Mat xh) →
  heap s !! Uhat v = Some (Mat uh) →
  heap s !! Y = Some (Mat y) →
  heap s !! Q v = Some (Mat q) →
  heap s !! W v = Some w →
  heap s !! Wlabels v = Some wl →
  run (split_mixup (Xhat v) (Uhat v) Y (Q v) (W v) (Wlabels v) alpha K) s
    = (r, s') →
  ∃ t, trace s' = trace s ++ t ∧
    match r with
    | Ok _ =>
        ∃ w1 lw1 w2 lw2,
          t = [CallMixup (Whole (Xhat v)) w1 (Whole Y) lw1 alpha K;
               CallMixup (Whole (Uhat v)) w2 (Whole (Q v)) lw2 alpha K]
    | Err _ =>
        t = [] ∨
        (∃ w1 lw1, t = [CallMixup (Whole (Xhat v)) w1 (Whole Y) lw1 alpha K]) ∨
        (∃ w1 lw1 w2 lw2,
           t = [CallMixup (Whole (Xhat v)) w1 (Whole Y) lw1 alpha K;
                CallMixup (Whole (Uhat v)) w2 (Whole (Q v)) lw2 alpha K])
    end.
Proof.
  intros HlX HlU HlY HlQ HlW HlWl Hs.
  rewrite (run_split_mixup _ _ _ _ _ _ _ _ _ _ _ _ alpha K _
    HlX HlU HlY HlQ HlW HlWl) in Hs.
  destruct (len w =? len wl).
  2: { injection Hs as <- <-. exists []. rewrite app_nil_r. by split; [|left]. }
  cbn zeta in Hs.
  destruct (index_items _ w) as [w'|].
  2: { injection Hs as <- <-. exists []. cbn. rewrite app_nil_r. by split; [|left]. }
  destruct (index_items _ wl) as [wl'|].
  2: { injection Hs as <- <-. exists []. cbn. rewrite app_nil_r. by split; [|left]. }
  destruct (mixup_ot1d (Mat xh) _ _ _ _ _ _) as [[e|[x' y']] g2].
  { injection Hs as <- <-. eexists. split; [done|]. right. left. by eexists _, _. }
  destruct (mixup_ot1d (Mat uh) _ _ _ _ _ _) as [[e|[u' q']] g3];
    injection Hs as <- <-; (eexists; split; [done|]).
  - right. right. by eexists _, _, _, _.
  - by eexists _, _, _, _.
Qed.


(** C5: a run of [mixmatch_ot1d] that returns has built the pool and
    shuffled it; and once that is done, whatever the outcome of the run,
    the shuffled pool [Ws], [Wls] is split at [l = len(Ws) // 2] and
    [mixup_ot1d] is called first on [Xhat], [Ws[:l]], [Y], [Wls[:l]] and
    then on [Uhat], [Ws[l:]], [Q], [Wls[l:]], with [alpha] and [K] as
    given: both calls when the run returns, and the first or both when
    [mixup_ot1d] raises. *)
Theorem mixup_calls_split_at_half X Y U x y u sd alpha K naug r s s' :
  heap s !! X = Some (Mat x) →
  heap s !! Y = Some (Mat y) →
  heap s !! U = Some (Mat u) →
  run (mixmatch_ot1d X Y U sd alpha K naug) s = (r, s') →
  (∀ out, r = Ok out →
     ∃ v s3 Ws Wls s4,
       run (build_pool X Y U sd naug) s = (Ok v, s3) ∧
       run (shuffle (W v) (Wlabels v)) s3 = (Ok (Ws, Wls), s4)) ∧
  (∀ v s3 Ws Wls s4,
     run (build_pool X Y U sd naug) s = (Ok v, s3) →
     run (shuffle (W v) (Wlabels v)) s3 = (Ok (Ws, Wls), s4) →
     ∃ ws wls,
       heap s4 !! Ws = Some ws ∧ heap s4 !! Wls = Some wls ∧
       len ws = len wls ∧
       heap s4 `prefix_of` heap s' ∧
       trace s4 = trace s ++ (CallModel <$> Uaugs v) ++ [Write (Q v)] ∧
       match r with
       | Ok _ =>
           trace s' = trace s4 ++
             [first_call v Y Ws Wls (len ws `div` 2) alpha K;
              second_call v Ws Wls (len ws `div` 2) alpha K]
       | Err e =>
           (∃ e', e = Raised e') ∧
           (trace s' = trace s4 ++
              [first_call v Y Ws Wls (len ws `div` 2) alpha K]
            ∨ trace s' = trace s4 ++
                [first_call v Y Ws Wls (len ws `div` 2) alpha K;
                 second_call v Ws Wls (len ws `div` 2) alpha K])
       end).
Proof.
  intros HX HY HU Hrun. split.
  - intros out ->. unfold mixmatch_ot1d in Hrun.
    apply bind_ok_inv in Hrun as (v & s3 & Hb & Hs).
    unfold split_mixup in Hs.
    apply bind_ok_inv in Hs as ([Ws Wls] & s4 & Hsh & _).
    by exists v, s3, Ws, Wls, s4.
  - intros v s3 Ws Wls s4 Hb Hsh.
    unfold mixmatch_ot1d in Hrun. rewrite run_bind, Hb in Hrun.
    pose proof (build_pool_ok_inv _ _ _ _ _ _ _ _ _ _ _ HX HY HU Hb) as Hpb.
    destruct Hpb as (uh & ts & q & wl & _ & _ & _ & _ & _ & _ & _ & Hh3 & _
                     & Ht3 & HlX & _ & HlU & HlQ & HlW & HlWl).
    assert (heap s3 !! Y = Some (Mat y)) as HlY.
    { rewrite Hh3. by apply lookup_app_l_Some. }
    destruct (split_mixup_calls _ _ _ _ _ _ _ _ _ _ _ _ _ _ _ _
                HlX HlU HlY HlQ HlW HlWl Hsh Hrun)
      as (ws & wls & Hws & Hwls & Hlen & Hpre & Ht4 & Hr).
    exists ws, wls. do 4 (split; [done|]). split; [by rewrite Ht4|]. done.
Qed.



(** C8: whatever its outcome, a run of [mixmatch_ot1d] leaves every
    object that existed before the call (so [X], [Y] and [U]) with its
    contents, and writes in place only to objects it has created itself;
    when it returns, its four results are four different objects created
    during the run, and the one in-place write of the run is the sort of
    [Q], an array created by line 98.  (The predictor and [mixup_ot1d]
    are taken to read their arguments and to answer with new arrays.) *)
Theorem mixmatch_inputs_untouched X Y U sd alpha K naug r s s' :
  run (mixmatch_ot1d X Y U sd alpha K naug) s = (r, s') →
  heap s `prefix_of` heap s' ∧
  (∃ t, trace s' = trace s ++ t ∧ Forall (fresh_write s) t) ∧
  (∀ Xp Yp Up Qp, r = Ok (Xp, Yp, Up, Qp) →
     length (heap s) ≤ Xp ∧ Xp < Yp ∧ Yp < Up ∧ Up < Qp ∧
     Qp < length (heap s')) ∧
  (∀ x y u out,
     heap s !! X = Some (Mat x) →
     heap s !! Y = Some (Mat y) →
     heap s !! U = Some (Mat u) →
     r = Ok out →
     ∃ v s3, run (build_pool X Y U sd naug) s = (Ok v, s3) ∧
       length (heap s) ≤ Q v ∧
       writes (drop (length (trace s)) (trace s')) = [Q v]).
Proof.
  intros Hrun.
  destruct (framed_mixmatch_ot1d _ _ _ _ _ _ _ _ _ _ Hrun) as [Hpre Htr].
  split; [done|]. split; [done|]. split.
  - intros Xp Yp Up Qp ->. unfold mixmatch_ot1d in Hrun.
    apply bind_ok_inv in Hrun as (v & s3 & Hb & Hs).
    apply framed_build_pool in Hb as [Hb%prefix_length _].
    apply split_mixup_fresh in Hs. lia.
  - intros x y u out HX HY HU ->.
    destruct (mixmatch_ok_inv _ _ _ _ _ _ _ _ _ _ _ _ _ HX HY HU Hrun)
      as (v & s3 & Hb & Hs & Hpb & HY3).
    destruct Hpb as (uh & ts & q & wl & _ & _ & _ & _ & _ & Hv & _ & _ & _ & Ht3
                     & HlX & _ & HlU & HlQ & HlW & HlWl).
    destruct (split_mixup_ok_inv _ _ _ _ _ _ _ _ _ _ _ _ _ _ _ _ _
                HlX HlU HY3 HlQ HlW HlWl Hs)
      as (w' & wl' & s4 & new & _ & _ & _ & _ & _ & _ & _ & _ & Ht').
    exists v, s3. split; [done|]. split; [rewrite Hv; cbn; lia|].
    rewrite Ht', Ht3, <-!app_assoc, drop_app_length, !writes_app, writes_calls.
    done.
Qed.

(** C9: two runs of [mixmatch_ot1d] whose inputs have the same
    contents (in whatever stores, at whatever locations), started with
    the generator of noise, shuffle and mixup in the same state and with
    a predictor whose answers do not depend on its hidden state, raise
    the same exception or return four arrays with the same contents. *)
Theorem mixmatch_deterministic X1 Y1 U1 X2 Y2 U2 x y u sd alpha K naug s1 s2 :
  heap s1 !! X1 = Some (Mat x) → heap s2 !! X2 = Some (Mat x) →
  heap s1 !! Y1 = Some (Mat y) → heap s2 !! Y2 = Some (Mat y) →
  heap s1 !! U1 = Some (Mat u) → heap s2 !! U2 = Some (Mat u) →
  rng s1 = rng s2 →
  deterministic_model →
  observe (run (mixmatch_ot1d X1 Y1 U1 sd alpha K naug) s1) =
  observe (run (mixmatch_ot1d X2 Y2 U2 sd alpha K naug) s2).
Proof.
  intros HX1 HX2 HY1 HY2 HU1 HU2 Hg Hdet.
  pose proof (build_pool_deterministic _ _ _ _ _ _ _ _ _ sd naug _ _
    HX1 HX2 HY1 HY2 HU1 HU2 Hg Hdet) as Hb.
  unfold mixmatch_ot1d. rewrite !run_bind.
  destruct (run (build_pool X1 Y1 U1 sd naug) s1) as [[v1|e1] t1],
           (run (build_pool X2 Y2 U2 sd naug) s2) as [[v2|e2] t2];
    try done; [|by subst].
  destruct Hb as (Hg' & xh & uh & q & w & wl & A1 & A2 & B1 & B2 & C1 & C2
                  & D1 & D2 & E1 & E2 & F1 & F2).
  by apply (split_mixup_deterministic _ _ _ _ _ _ _ _ _ _ _ _ xh uh y q w wl).
Qed.


(** ** Further properties: [generate_noise] and [noisy_augment] *)

Lemma noise_of_wf x sd g : wf_matrix (noise_of x sd g).
Proof. unfold wf_matrix, noise_of. cbn. apply normal_rows_wf. Qed.


Lemma py_range_pos K : (1 ≤ K)%Z → ∃ zs, py_range K = 0%Z :: zs.
Proof.
  intros HK. unfold py_range. destruct (Z.to_nat K) as [|k] eqn:Hk; [lia|].
  cbn. by eexists.
Qed.

(** X2: with a negative scale [generate_noise(X, stddev)] raises
    [ValueError] and changes nothing; so does
    [noisy_augment(X, stddev, K)] for [K >= 1], at its first element and
    with no sample drawn; for [K < 1] the comprehension of line 52 never
    calls [generate_noise], and the empty list is returned although the
    scale is negative. *)
Theorem noisy_augment_negative_scale X x sd K s :
  heap s !! X = Some (Mat x) →
  flt sd fzero = true →
  run (generate_noise X sd) s = (Err ValueError, s) ∧
  ((1 ≤ K)%Z → run (noisy_augment X sd K) s = (Err ValueError, s)) ∧
  ((K < 1)%Z → run (noisy_augment X sd K) s = (Ok [], s)).
Proof.
  intros HX Hsd. split; [|split].
  - unfold generate_noise, np_random_normal.
    by rewrite run_bind, (run_load_mat _ _ _ HX), Hsd.
  - intros [zs Hzs]%py_range_pos. unfold noisy_augment.
    by rewrite Hzs, mapM_cons, run_bind, (run_add_noise _ x), Hsd.
  - apply run_noisy_augment_empty.
Qed.

(** A comprehension whose body ignores the loop variable. *)
Lemma run_mapM_const_app {A} (c : M A) (xs ys : list Z) s :
  run (mapM (λ _ : Z, c) (xs ++ ys)) s =
  run (a ← mapM (λ _ : Z, c) xs; b ← mapM (λ _ : Z, c) ys; mret (a ++ b)) s.
Proof.
  revert s. induction xs as [|x xs IH]; intros s.
  - cbn [app]. rewrite mapM_nil, !run_bind, run_ret, run_bind.
    by destruct (run (mapM _ ys) s) as [[b|e] s1].
  - cbn [app]. rewrite !mapM_cons, !run_bind.
    destruct (run c s) as [[y|e] s1]; [|done].
    rewrite !run_bind, IH, !run_bind.
    destruct (run (mapM _ xs) s1) as [[a|e] s2]; [|done].
    rewrite run_ret, !run_bind.
    by destruct (run (mapM _ ys) s2) as [[b|e] s3].
Qed.

Lemma run_mapM_const_length {A} (c : M A) (xs ys : list Z) s :
  length xs = length ys →
  run (mapM (λ _ : Z, c) xs) s = run (mapM (λ _ : Z, c) ys) s.
Proof.
  revert ys s. induction xs as [|x xs IH]; intros [|y ys] s Hl; try done.
  rewrite !mapM_cons, !run_bind. destruct (run c s) as [[v|e] s1]; [|done].
  rewrite !run_bind, (IH ys) by (cbn in Hl; lia). done.
Qed.

(** X3: [noisy_augment(X, stddev, K1 + K2)] behaves as
    [noisy_augment(X, stddev, K1) + noisy_augment(X, stddev, K2)], the
    second call made after the first: the same list of copies, the same
    store and generator afterwards, or the same exception, for every
    store and every scale. *)
Theorem noisy_augment_app X sd K1 K2 s :
  (0 ≤ K1)%Z → (0 ≤ K2)%Z →
  run (noisy_augment X sd (K1 + K2)) s =
  run (a ← noisy_augment X sd K1; b ← noisy_augment X sd K2; mret (a ++ b)) s.
Proof.
  intros H1 H2. unfold noisy_augment.
  rewrite <-run_mapM_const_app. apply run_mapM_const_length.
  rewrite length_app, !length_py_range. lia.
Qed.

Lemma noisy_copies_lookup x sd k g i :
  i < k →
  noisy_copies x sd k g !! i
  = Some (madd x (noise_of x sd (noisy_rng x sd i g))).
Proof.
  revert g i. induction k as [|k IH]; intros g [|i] Hi; cbn; try lia; [done|].
  apply IH. lia.
Qed.

Lemma copy_locs_lookup_nat base k i :
  i < k → copy_locs base k !! i = Some (base + 2 * i + 1).
Proof.
  revert base i. induction k as [|k IH]; intros base [|i] Hi; cbn; try lia.
  - f_equal. lia.
  - rewrite IH by lia. f_equal. lia.
Qed.

Lemma copy_locs_NoDup base k :
  NoDup (copy_locs base k) ∧ Forall (λ l, base < l) (copy_locs base k).
Proof.
  revert base. induction k as [|k IH]; intros base; cbn.
  { split; constructor. }
  destruct (IH (S (S base))) as [Hn Hf]. split.
  - constructor; [|done]. intros Hin. rewrite Forall_forall in Hf.
    specialize (Hf _ Hin). lia.
  - constructor; [lia|]. eapply Forall_impl; [exact Hf|]. cbn. lia.
Qed.


(** ** Further properties: the pseudo-labels *)

(** Row [i] of a join is the concatenation of the rows [i] of its
    parts. *)
Lemma foldl_hcat_row t ts i r :
  rows (foldl hcat t ts) !! i = Some r →
  ∃ r0 rs, rows t !! i = Some r0 ∧
    Forall2 (λ t' ri, rows t' !! i = Some ri) ts rs ∧ r = r0 ++ concat rs.
Proof.
  revert t. induction ts as [|t1 ts IH]; intros t; cbn [foldl].
  { intros Hr. exists r, []. split; [done|]. split; [constructor|].
    cbn. by rewrite app_nil_r. }
  intros (r01 & rs & Hr01 & Hrs & ->)%IH.
  unfold hcat in Hr01. cbn [rows] in Hr01.
  apply lookup_zip_with_Some in Hr01 as (r0 & r1 & -> & Hr0 & Hr1).
  exists r0, (r1 :: rs). split; [done|]. split; [by constructor|].
  cbn. by rewrite app_assoc.
Qed.

Lemma hstack_row ts q i r :
  hstack ts = Some q → rows q !! i = Some r →
  ∃ rs, Forall2 (λ t ri, rows t !! i = Some ri) ts rs ∧ r = concat rs.
Proof.
  intros (t & ts' & -> & -> & _)%hstack_Some_inv
    (r0 & rs & Hr0 & Hrs & ->)%foldl_hcat_row.
  exists (r0 :: rs). split; [by constructor | done].
Qed.

Lemma sort_rows_row q i r :
  rows (sort_rows q) !! i = Some r →
  ∃ r0, rows q !! i = Some r0 ∧ r ≡ₚ r0.
Proof.
  unfold sort_rows. cbn [rows]. rewrite list_lookup_fmap.
  destruct (rows q !! i) as [r0|]; [|done]. intros [= <-].
  exists r0. split; [done|]. unfold sort_row. apply merge_sort_Permutation.
Qed.

(** X5: when lines 94-100 run through on the copies [ls], the
    predictor has answered every copy, its answers are still in the
    store as it gave them (the sort works on the joined array only),
    and row [i] of [Q] holds exactly the values of the rows [i] of the
    answers, each as often as it occurs there, in another order: the
    sort keeps every predicted label and loses which copy it came
    from. *)
Theorem pseudo_labels_rearrange_predictions ls ms Qq s s' :
  holds (heap s) ls ms →
  run (pseudo_labels ls) s = (Ok Qq, s') →
  ∃ ts q,
    predict_all ms (pst s) = (inr ts, pst s') ∧
    holds (heap s') (seq (length (heap s)) (length ls)) ts ∧
    heap s' !! Qq = Some (Mat q) ∧
    ∀ i r, rows q !! i = Some r →
      ∃ rs, Forall2 (λ t ri, rows t !! i = Some ri) ts rs ∧ r ≡ₚ concat rs.
Proof.
  intros Hh Hrun. pose proof (run_pseudo_labels _ _ _ Hh) as Hp.
  destruct (predict_all ms (pst s)) as [[e|ts] p'] eqn:Hts.
  { destruct Hp as [s1 Hp]. congruence. }
  destruct (hstack ts) as [q|] eqn:Hq; [|congruence].
  rewrite Hrun in Hp. injection Hp as -> ->. cbn [heap pst].
  assert (length ts = length ls) as Hlen.
  { rewrite (predict_all_length _ _ _ _ Hts). symmetry. by eapply Forall2_length. }
  exists ts, (sort_rows q). split; [done|]. split; [|split].
  - rewrite app_assoc, <-Hlen. apply holds_app, holds_seq.
  - rewrite app_assoc. apply list_lookup_middle.
    by rewrite length_app, length_fmap, Hlen.
  - intros i r (r0 & Hr0 & Hperm)%sort_rows_row.
    destruct (hstack_row _ _ _ _ Hq Hr0) as (rs & Hrs & ->). by exists rs.
Qed.

(** The predictor calls up to the one that raises. *)
Lemma run_predictions_raise ls ms e p' s :
  holds (heap s) ls ms →
  predict_all ms (pst s) = (inl e, p') →
  ∃ j ts,
    j < length ls ∧ length ts = j ∧
    run (mapM modeln ls) s =
    (Err (Raised e),
     State (heap s ++ (Mat <$> ts)) (rng s) p'
           (trace s ++ (CallModel <$> take (S j) ls))).
Proof.
  revert ms s. induction ls as [|l ls IH]; intros ms s Hh.
  { apply Forall2_nil_inv_l in Hh as ->. done. }
  apply Forall2_cons_inv_l in Hh as (m & ms' & Hl & Hh & ->).
  cbn [predict_all]. rewrite mapM_cons, run_bind, (run_modeln _ m) by done.
  destruct (model m (pst s)) as [[e1|t] p1].
  { intros [= <- <-]. exists 0, []. cbn. rewrite app_nil_r.
    split; [lia|]. split; [done|]. by rewrite take_0. }
  destruct (predict_all ms' p1) as [[e2|ts] p2] eqn:Hp; [|done].
  intros [= <- <-].
  set (s1 := State _ _ _ _).
  destruct (IH ms' s1 (holds_app _ [Mat t] _ _ Hh) Hp) as (j & ts & Hj & Hlen & Hrun).
  exists (S j), (t :: ts). cbn [length]. split; [lia|]. split; [lia|].
  rewrite run_bind, Hrun. subst s1. cbn [heap rng pst trace].
  rewrite <-!app_assoc. done.
Qed.



(** ** Further properties: the pool, the shuffle and the split *)

Lemma omap_lookup_seq {A} (xs ys : list A) :
  omap (λ i, (xs ++ ys) !! i) (seq (length xs) (length ys)) = ys.
Proof.
  revert xs. induction ys as [|x ys IH]; intros xs; [done|].
  cbn [length seq]. cbn [omap list_omap].
  rewrite list_lookup_middle by done. f_equal.
  specialize (IH (xs ++ [x])). rewrite <-app_assoc, length_app in IH.
  cbn [length app] in IH.
  by replace (length xs + 1) with (S (length xs)) in IH by lia.
Qed.

Lemma Forall2_lookup_omap {A} (xs : list A) idx ks :
  Forall2 (λ i y, xs !! i = Some y) idx ks → omap (λ i, xs !! i) idx = ks.
Proof. induction 1 as [|i y idx ks Hi _ IH]; cbn; [done|]. by rewrite Hi, IH. Qed.

Lemma lookup_permutation {A} (xs : list A) idx ks :
  idx ≡ₚ seq 0 (length xs) →
  Forall2 (λ i y, xs !! i = Some y) idx ks →
  ks ≡ₚ xs.
Proof.
  intros Hp Hl. rewrite <-(Forall2_lookup_omap _ _ _ Hl), Hp.
  exact (reflexive_eq _ _ (omap_lookup_seq [] xs)).
Qed.

Lemma mapM_lookup_permutation {A} (xs : list A) idx :
  idx ≡ₚ seq 0 (length xs) →
  ∃ ks, mapM (λ i, xs !! i) idx = Some ks.
Proof.
  intros Hp. apply (mapM_is_Some_2 (λ i, xs !! i)).
  rewrite Hp. apply Forall_forall. intros i Hi%elem_of_seq. cbn.
  apply lookup_lt_is_Some. lia.
Qed.

Lemma Forall2_lookup_zip {A B} (xs : list A) (ys : list B) idx k1 k2 :
  Forall2 (λ i y, xs !! i = Some y) idx k1 →
  Forall2 (λ i y, ys !! i = Some y) idx k2 →
  Forall2 (λ i p, zip xs ys !! i = Some p) idx (zip k1 k2).
Proof.
  intros H1. revert k2. induction H1 as [|i y idx k1 Hi _ IH]; intros k2 H2.
  { apply Forall2_nil_inv_l in H2 as ->. constructor. }
  apply Forall2_cons_inv_l in H2 as (z & k2' & Hz & H2 & ->).
  cbn. constructor; [|by apply IH].
  apply lookup_zip_with_Some. by exists y, z.
Qed.

Lemma items_of_with_items a its : items_of (with_items a its) = its.
Proof. by destruct a. Qed.

Lemma is_2d_with_items a its : is_2d (with_items a its) = is_2d a.
Proof. by destruct a. Qed.

Lemma len_items_of a : len a = length (items_of a).
Proof. by destruct a. Qed.

(** An array indexed by a permutation of its indices. *)
Lemma index_items_permutation idx a :
  idx ≡ₚ seq 0 (len a) →
  ∃ a', index_items idx a = Some a' ∧
    Forall2 (λ i y, items_of a !! i = Some y) idx (items_of a') ∧
    is_2d a' = is_2d a ∧ len a' = len a.
Proof.
  intros Hp. rewrite len_items_of in Hp.
  destruct (mapM_lookup_permutation _ _ Hp) as [its Hits].
  exists (with_items a its). unfold index_items. rewrite Hits.
  split; [done|]. rewrite items_of_with_items, is_2d_with_items.
  split; [by apply mapM_Some_1|]. split; [done|].
  rewrite !len_items_of, items_of_with_items.
  rewrite <-(length_mapM _ _ _ Hits), Hp. by rewrite length_seq.
Qed.

(** Line 110 on two arrays of one length: one permutation of the
    indices is applied to both, so every item stays with its label. *)
Lemma shuffle_pairs A B a b s :
  heap s !! A = Some a →
  heap s !! B = Some b →
  permutation_source →
  len a = len b →
  ∃ a' b' g,
    run (shuffle A B) s =
      (Ok (length (heap s), S (length (heap s))),
       State (heap s ++ [a'; b']) g (pst s) (trace s)) ∧
    index_items (random_permutation (len a) (rng s)).1 a = Some a' ∧
    index_items (random_permutation (len a) (rng s)).1 b = Some b' ∧
    is_2d a' = is_2d a ∧ is_2d b' = is_2d b ∧
    len a' = len a ∧ len b' = len b ∧
    pairs a' b' ≡ₚ pairs a b.
Proof.
  intros HA HB Hps Hlen. rewrite (run_shuffle _ _ a b) by done.
  rewrite Hlen, Nat.eqb_refl. cbn zeta. rewrite <-Hlen.
  pose proof (Hps (len a) (rng s)) as Hp.
  destruct (index_items_permutation _ a Hp) as (a' & -> & Ha' & H2a & Hla).
  assert ((random_permutation (len a) (rng s)).1 ≡ₚ seq 0 (len b)) as Hp'
    by by rewrite <-Hlen.
  destruct (index_items_permutation _ b Hp') as (b' & -> & Hb' & H2b & Hlb).
  exists a', b', (random_permutation (len a) (rng s)).2.
  repeat split; try done; [congruence|].
  unfold pairs. apply (lookup_permutation _ (random_permutation (len a) (rng s)).1).
  - rewrite length_zip_with, <-!len_items_of, <-Hlen, Nat.min_id. done.
  - by apply Forall2_lookup_zip.
Qed.


Lemma items_of_array_of rs a : array_of rs = Some a → items_of a = rs.
Proof.
  unfold array_of. destruct rs as [|r rs]; [by intros [= <-]|].
  destruct (forallb _ _); [by intros [= <-]|].
  destruct legacy_ragged; [by intros [= <-] | done].
Qed.

Lemma len_slice_to k a : len (slice_to k a) = k `min` len a.
Proof. destruct a; cbn; unfold nrows; cbn; by rewrite length_take. Qed.

Lemma len_slice_from k a : len (slice_from k a) = len a - k.
Proof. destruct a; cbn; unfold nrows; cbn; by rewrite length_drop. Qed.

Lemma items_of_slices k a :
  items_of (slice_to k a) ++ items_of (slice_from k a) = items_of a.
Proof. destruct a; cbn; apply take_drop. Qed.

(** The rows of the predictions, hence of [Q], once lines 87-107 have
    run through with a predictor that keeps the number of rows. *)
Lemma pool_built_rows x y u sd naug s v s' :
  row_preserving →
  pool_built x y u sd naug s v s' →
  (1 ≤ naug)%Z →
  ∃ xh uh q w wl,
    heap s' !! Xhat v = Some (Mat xh) ∧
    heap s' !! Uhat v = Some (Mat uh) ∧
    heap s' !! Q v = Some (Mat q) ∧
    heap s' !! W v = Some w ∧
    heap s' !! Wlabels v = Some wl ∧
    shape xh = shape x ∧ shape uh = shape u ∧ nrows q = nrows u ∧
    items_of w = rows xh ++ rows uh ∧
    items_of wl = rows y ++ rows q ∧
    trace s' = trace s ++ (CallModel <$> Uaugs v) ++ [Write (Q v)].
Proof.
  intros Hrp (uh & ts & q & wl & Huh & Hts & Hq & _ & Hwl & _ & _ & _ & _
              & Htr & HlX & _ & HlU & HlQ & HlW & HlWl) Hn.
  destruct (predict_all_rows
    (noisy_copies u sd (Z.to_nat naug) (noise_rng x sd (rng s))) (pst s) Hrp)
    as (ts' & p' & Hts' & Hrows).
  rewrite Hts in Hts'. injection Hts' as <- _.
  destruct (hstack_predictions u sd (Z.to_nat naug) _ ts ltac:(lia) Hrows)
    as (q' & Hq' & Hqn).
  rewrite Hq in Hq'. injection Hq' as <-.
  eexists _, uh, (sort_rows q), _, wl.
  do 5 (split; [done|]).
  split; [apply madd_noise_shape|]. split.
  { pose proof (noisy_copies_shape u sd (Z.to_nat naug)
      (noise_rng x sd (rng s))) as Hs.
    apply last_Some_elem_of in Huh. rewrite Forall_forall in Hs. by apply Hs. }
  split; [by rewrite nrows_sort_rows|].
  split; [done|]. split; [by apply items_of_array_of | done].
Qed.

(** X8: once lines 87-107 have run through with [len(X) == len(Y)]
    and a predictor that keeps the number of rows, the pool pairs every
    row of [Xhat] with the row of [Y] at the same index and every row
    of [Uhat] with the row of [Q] at the same index; the shuffle of
    line 110 then goes through and keeps exactly these pairs, each as
    often as it occurred, in another order: no row of the pool is
    separated from its label, none is lost or repeated. *)
Theorem shuffled_pool_keeps_labels X Y U x y u sd naug v s s3 :
  heap s !! X = Some (Mat x) →
  heap s !! Y = Some (Mat y) →
  heap s !! U = Some (Mat u) →
  nrows x = nrows y →
  row_preserving →
  permutation_source →
  run (build_pool X Y U sd naug) s = (Ok v, s3) →
  ∃ xh uh q w wl Ws Wls s4 ws wls,
    heap s3 !! Xhat v = Some (Mat xh) ∧
    heap s3 !! Uhat v = Some (Mat uh) ∧
    heap s3 !! Q v = Some (Mat q) ∧
    heap s3 !! W v = Some w ∧
    heap s3 !! Wlabels v = Some wl ∧
    pairs w wl = zip (rows xh) (rows y) ++ zip (rows uh) (rows q) ∧
    run (shuffle (W v) (Wlabels v)) s3 = (Ok (Ws, Wls), s4) ∧
    heap s4 !! Ws = Some ws ∧
    heap s4 !! Wls = Some wls ∧
    pairs ws wls ≡ₚ zip (rows xh) (rows y) ++ zip (rows uh) (rows q).
Proof.
  intros HX HY HU Hxy Hrp Hps Hb.
  destruct (build_pool_needs _ _ _ _ _ _ _ _ _ _ HX HU Hb) as [Hn Hsd].
  pose proof (build_pool_ok_inv _ _ _ _ _ _ _ _ _ _ _ HX HY HU Hb) as Hpb.
  destruct (pool_built_rows _ _ _ _ _ _ _ _ Hrp Hpb Hn)
    as (xh & uh & q & w & wl & HlX & HlU & HlQ & HlW & HlWl
        & Hsx & Hsu & Hqn & Hw & Hwl & _).
  injection Hsx as Hnx _. injection Hsu as Hnu _.
  assert (pairs w wl = zip (rows xh) (rows y) ++ zip (rows uh) (rows q)) as Hpairs.
  { unfold pairs. rewrite Hw, Hwl. apply zip_with_app.
    fold (nrows xh) (nrows y). congruence. }
  assert (len w = len wl) as Hlen.
  { rewrite !len_items_of, Hw, Hwl, !length_app.
    fold (nrows xh) (nrows uh) (nrows y) (nrows q). congruence. }
  destruct (shuffle_pairs _ _ _ _ _ HlW HlWl Hps Hlen)
    as (ws & wls & g & Hsh & _ & _ & _ & _ & _ & _ & Hperm).
  eexists xh, uh, q, w, wl, _, _, _, ws, wls.
  do 6 (split; [done|]). split; [exact Hsh|]. cbn [heap].
  split; [by rewrite list_lookup_middle|].
  split.
  { rewrite lookup_app_r by lia.
    by replace (S (length (heap s3)) - length (heap s3)) with 1 by lia. }
  by rewrite Hperm, Hpairs.
Qed.

(** X9: in a run of [mixmatch_ot1d] that returns, with a predictor
    that keeps the number of rows, [len(X) == len(Y)] holds and the
    shuffled pool has [n = len(X) + len(U)] rows and as many labels;
    the slices [W[:l]], [Wlabels[:l]] handed to the first call of
    [mixup_ot1d] have [n // 2] items and the slices [W[l:]],
    [Wlabels[l:]] handed to the second have the other [n - n // 2]; the
    two slices make up the shuffled pool, item by item; and the slices
    have the lengths of their anchors [Xhat] and [Uhat] exactly when
    [len(U)] is [len(X)] or [len(X) + 1]. *)
Theorem mixup_halves_sizes X Y U x y u sd alpha K naug out s s' :
  heap s !! X = Some (Mat x) →
  heap s !! Y = Some (Mat y) →
  heap s !! U = Some (Mat u) →
  row_preserving →
  permutation_source →
  run (mixmatch_ot1d X Y U sd alpha K naug) s = (Ok out, s') →
  ∃ v s3 Ws Wls s4 ws wls,
    run (build_pool X Y U sd naug) s = (Ok v, s3) ∧
    run (shuffle (W v) (Wlabels v)) s3 = (Ok (Ws, Wls), s4) ∧
    heap s4 !! Ws = Some ws ∧
    heap s4 !! Wls = Some wls ∧
    nrows x = nrows y ∧
    len ws = nrows x + nrows u ∧
    len wls = nrows x + nrows u ∧
    let l := len ws `div` 2 in
    let n := nrows x + nrows u in
    len (slice_to l ws) = n `div` 2 ∧
    len (slice_to l wls) = n `div` 2 ∧
    len (slice_from l ws) = n - n `div` 2 ∧
    len (slice_from l wls) = n - n `div` 2 ∧
    items_of (slice_to l ws) ++ items_of (slice_from l ws) = items_of ws ∧
    items_of (slice_to l wls) ++ items_of (slice_from l wls) = items_of wls ∧
    (len (slice_to l ws) = nrows x ∧ len (slice_from l ws) = nrows u
       ↔ nrows u = nrows x ∨ nrows u = S (nrows x)).
Proof.
  intros HX HY HU Hrp Hps Hrun.
  destruct (mixmatch_ok_inv _ _ _ _ _ _ _ _ _ _ _ _ _ HX HY HU Hrun)
    as (v & s3 & Hb & Hs & Hpb & HY3).
  destruct (build_pool_needs _ _ _ _ _ _ _ _ _ _ HX HU Hb) as [Hn Hsd].
  destruct (pool_built_rows _ _ _ _ _ _ _ _ Hrp Hpb Hn)
    as (xh & uh & q & w & wl & HlX & HlU & HlQ & HlW & HlWl
        & Hsx & Hsu & Hqn & Hw & Hwl & _).
  injection Hsx as Hnx _. injection Hsu as Hnu _.
  destruct (split_mixup_ok_inv _ _ _ _ _ _ _ _ _ _ _ _ _ _ _ _ _
    HlX HlU HY3 HlQ HlW HlWl Hs) as (w' & wl' & s1 & new & Hlen & _).
  assert (len w = nrows x + nrows u) as Hlw.
  { rewrite len_items_of, Hw, length_app. fold (nrows xh) (nrows uh). lia. }
  assert (len wl = nrows y + nrows u) as Hlwl.
  { rewrite len_items_of, Hwl, length_app. fold (nrows y) (nrows q). lia. }
  destruct (shuffle_pairs _ _ _ _ _ HlW HlWl Hps Hlen)
    as (ws & wls & g & Hsh & _ & _ & _ & _ & Hlws & Hlwls & _).
  eexists v, s3, _, _, _, ws, wls.
  split; [done|]. split; [exact Hsh|]. cbn [heap].
  split; [by rewrite list_lookup_middle|].
  split.
  { rewrite lookup_app_r by lia.
    by replace (S (length (heap s3)) - length (heap s3)) with 1 by lia. }
  split; [lia|]. split; [lia|]. split; [lia|]. cbn zeta.
  rewrite !len_slice_to, !len_slice_from, Hlws, Hlwls, <-Hlen, Hlw.
  pose proof (Nat.div_mod_eq (nrows x + nrows u) 2) as Hdm.
  pose proof (Nat.mod_upper_bound (nrows x + nrows u) 2 ltac:(lia)) as Hmod.
  split; [lia|]. split; [lia|]. split; [done|]. split; [done|].
  split; [apply items_of_slices|]. split; [apply items_of_slices|]. lia.
Qed.


(** ** Further properties: runs that fail, runs that return *)

Lemma ncols_last_copy u sd k g uh :
  last (noisy_copies u sd k g) = Some uh → shape uh = shape u.
Proof.
  intros Huh%last_Some_elem_of.
  pose proof (noisy_copies_shape u sd k g) as Hs.
  rewrite Forall_forall in Hs. by apply Hs.
Qed.


Lemma array_of_ragged rs r1 r2 :
  r1 ∈ rs → r2 ∈ rs → length r1 ≠ length r2 →
  array_of rs = if legacy_ragged then Some (Arr1 rs) else None.
Proof.
  intros H1 H2 Hne. unfold array_of. destruct rs as [|r rs'] eqn:Hrs.
  { by apply elem_of_nil in H1. }
  rewrite <-Hrs in *.
  destruct (forallb _ rs) eqn:Hf; [|done].
  rewrite forallb_forall in Hf.
  apply list_elem_of_In, Hf, Nat.eqb_eq in H1.
  apply list_elem_of_In, Hf, Nat.eqb_eq in H2. congruence.
Qed.

(** The label pool of line 106 when [Y] and [Q] differ in width. *)
Lemma label_rows_ragged y q :
  wf_matrix y → wf_matrix q → 0 < nrows y → 0 < nrows q →
  ncols y ≠ ncols q →
  array_of (rows y ++ rows (sort_rows q))
  = if legacy_ragged then Some (Arr1 (rows y ++ rows (sort_rows q))) else None.
Proof.
  intros Hy Hq Hny Hnq Hne.
  apply wf_sort_rows in Hq. rewrite <-nrows_sort_rows in Hnq.
  change (ncols q) with (ncols (sort_rows q)) in Hne.
  revert Hq Hnq Hne. generalize (sort_rows q). clear q. intros q Hq Hnq Hne.
  unfold nrows in *. unfold wf_matrix in *.
  destruct (rows y) as [|ry rsy] eqn:Hry; [cbn in Hny; lia|].
  destruct (rows q) as [|rq rsq] eqn:Hrq; [cbn in Hnq; lia|].
  apply Forall_cons in Hy as [Hy _]. apply Forall_cons in Hq as [Hq _].
  apply (array_of_ragged _ ry rq).
  - apply elem_of_app. left. apply elem_of_cons. by left.
  - apply elem_of_app. right. apply elem_of_cons. by left.
  - congruence.
Qed.

(** Lines 87-107 with a predictor that answers with [(n,1)] columns,
    up to the label pool. *)
Lemma run_build_pool_columns X Y U x y u sd naug s :
  heap s !! X = Some (Mat x) →
  heap s !! Y = Some (Mat y) →
  heap s !! U = Some (Mat u) →
  flt sd fzero = false →
  (1 ≤ naug)%Z →
  label_column →
  ncols x = ncols u →
  let n := length (heap s) in
  let k := Z.to_nat naug in
  let Ua := copy_locs (S (S n)) k in
  let Qq := n + (2 + 2 * k) + k in
  ∃ q p' h g uh,
    nrows q = nrows u ∧ ncols q = k ∧ wf_matrix q ∧
    length h = S Qq ∧
    h !! Qq = Some (Mat (sort_rows q)) ∧
    last (noisy_copies u sd k (noise_rng x sd (rng s))) = Some uh ∧
    match array_of (rows y ++ rows (sort_rows q)) with
    | Some wl =>
        run (build_pool X Y U sd naug) s =
        (Ok (Locals (S n) Ua (n + 2 * k + 1) Qq (S Qq) (S (S Qq))),
         State (h ++ [Mat (vstack (madd x (noise_of x sd (rng s))) uh); wl])
               g p' (trace s ++ (CallModel <$> Ua) ++ [Write Qq]))
    | None =>
        run (build_pool X Y U sd naug) s =
        (Err ValueError,
         State (h ++ [Mat (vstack (madd x (noise_of x sd (rng s))) uh)])
               g p' (trace s ++ (CallModel <$> Ua) ++ [Write Qq]))
    end.
Proof.
  intros HX HY HU Hsd Hn Hlc Hcols n k Ua Qq.
  destruct (run_build_pool _ _ _ _ _ _ _ _ _ HX HY HU Hsd Hn)
    as (uh & Huh & HUh & Hp).
  cbn zeta in Hp.
  destruct (predict_all_columns
    (noisy_copies u sd (Z.to_nat naug) (noise_rng x sd (rng s))) (pst s) Hlc)
    as (ts & p' & Hts & Hrows).
  rewrite Hts in Hp.
  destruct (hstack_columns u sd (Z.to_nat naug) _ ts ltac:(lia) Hrows)
    as (q & Hq & Hqn & Hqc & Hqw).
  rewrite Hq in Hp.
  pose proof (ncols_last_copy _ _ _ _ _ Huh) as Hsu. injection Hsu as _ Huc.
  assert ((ncols (madd x (noise_of x sd (rng s))) =? ncols uh) = true) as Hc.
  { apply Nat.eqb_eq. cbn [madd ncols]. congruence. }
  rewrite Hc in Hp.
  assert (length ts = k) as Hlen.
  { apply Forall2_length in Hrows. by rewrite length_noisy_copies in Hrows. }
  eexists q, p', _, _, uh. do 3 (split; [done|]).
  split; [|split; [|split; [exact Huh | exact Hp]]].
  - rewrite !length_app, length_augment_objects, length_fmap, Hlen.
    cbn [length]. subst Qq n k. lia.
  - rewrite app_assoc. apply list_lookup_middle.
    rewrite !length_app, length_augment_objects, length_fmap, Hlen. done.
Qed.





(** X14: what a run of [mixmatch_ot1d] that returns tells about its
    arguments: [naug >= 1]; the scale is not negative; [X] and [U] have
    the same number of columns; with a predictor that keeps the number
    of rows, [len(X) == len(Y)]; and with NumPy from 1.24 on, a
    predictor that answers with [(n,1)] columns and non-empty [Y] and
    [U], [naug] is the number of columns of [Y]. *)
Theorem mixmatch_returns_only_if X Y U x y u sd alpha K naug out s s' :
  heap s !! X = Some (Mat x) →
  heap s !! Y = Some (Mat y) →
  heap s !! U = Some (Mat u) →
  run (mixmatch_ot1d X Y U sd alpha K naug) s = (Ok out, s') →
  (1 ≤ naug)%Z ∧
  flt sd fzero = false ∧
  ncols x = ncols u ∧
  (row_preserving → nrows x = nrows y) ∧
  (label_column → legacy_ragged = false → wf_matrix y →
   0 < nrows y → 0 < nrows u → Z.of_nat (ncols y) = naug).
Proof.
  intros HX HY HU Hrun.
  destruct (mixmatch_ok_inv _ _ _ _ _ _ _ _ _ _ _ _ _ HX HY HU Hrun)
    as (v & s3 & Hb & Hs & Hpb & HY3).
  destruct (build_pool_needs _ _ _ _ _ _ _ _ _ _ HX HU Hb) as [Hn Hsd].
  split; [done|]. split; [done|].
  assert (ncols x = ncols u) as Hcols.
  { destruct Hpb as (uh & ts & q & wl & Huh & _ & _ & Hc & _).
    apply ncols_last_copy in Huh. injection Huh as _ Huc.
    cbn [madd ncols] in Hc. congruence. }
  split; [done|]. split.
  - intros Hrp.
    destruct (pool_built_rows _ _ _ _ _ _ _ _ Hrp Hpb Hn)
      as (xh & uh & q & w & wl & HlX & HlU & HlQ & HlW & HlWl
          & Hsx & Hsu & Hqn & Hw & Hwl & _).
    injection Hsx as Hnx _. injection Hsu as Hnu _.
    destruct (split_mixup_ok_inv _ _ _ _ _ _ _ _ _ _ _ _ _ _ _ _ _
      HlX HlU HY3 HlQ HlW HlWl Hs) as (w' & wl' & s1 & new & Hlen & _).
    rewrite !len_items_of, Hw, Hwl, !length_app in Hlen.
    fold (nrows xh) (nrows uh) (nrows y) (nrows q) in Hlen. lia.
  - intros Hlc Hleg Hwy Hny Hnu.
    destruct (Z.eq_dec (Z.of_nat (ncols y)) naug) as [|Hne]; [done|].
    destruct (run_build_pool_columns _ _ _ _ _ _ _ _ _ HX HY HU Hsd Hn Hlc Hcols)
      as (q & p' & h & g & uh & Hqn & Hqc & Hqw & _ & _ & _ & Hp).
    rewrite (label_rows_ragged y q), Hleg in Hp by (try done; lia).
    congruence.
Qed.


End Facts.

(** * Evaluation on the concrete instance *)

Section Evaluation.
Import Demo.

Lemma demo_label_column : label_column.
Proof.
  intros m p. eexists _, _. split; [reflexivity|].
  split; [by unfold nrows; cbn; rewrite length_fmap|]. split; [done|].
  unfold wf_matrix. cbn. apply Forall_fmap, Forall_true. done.
Qed.

Lemma demo_row_preserving : row_preserving.
Proof. apply label_column_row_preserving, demo_label_column. Qed.

Lemma demo_deterministic : deterministic_model.
Proof. by intros m p p'. Qed.

Lemma demo_total : Total (λ v1 v2 : float, fle v1 v2).
Proof.
  intros v1 v2. cbn. destruct (Z.leb_spec v1 v2), (Z.leb_spec v2 v1); cbn; auto.
  lia.
Qed.






Lemma run1_ok : run (mixmatch_ot1d 0 1 2 1%Z 7%Z 3 1) s0 = (Ok (13, 14, 15, 16), run1.2).
Proof. vm_compute. reflexivity. Qed.

Lemma pool_row_counts_witness :
  ∃ v s3 xh uh y3 q w wl,
    run (build_pool 0 1 2 1%Z 1) s0 = (Ok v, s3) ∧
    run (split_mixup (Xhat v) (Uhat v) 1 (Q v) (W v) (Wlabels v) 7%Z 3) s3
      = (Ok (13, 14, 15, 16), run1.2) ∧
    heap s3 !! Xhat v = Some xh ∧
    heap s3 !! Uhat v = Some uh ∧
    heap s3 !! 1 = Some y3 ∧
    heap s3 !! Q v = Some q ∧
    heap s3 !! W v = Some w ∧
    heap s3 !! Wlabels v = Some wl ∧
    len w = len xh + len uh ∧
    len wl = len y3 + len q ∧
    len w = len wl.
Proof.
  apply (pool_row_counts 0 1 2 X0 Y0 U0 1%Z 7%Z 3 1 (13, 14, 15, 16) s0 run1.2);
    [reflexivity | reflexivity | reflexivity | reflexivity | reflexivity
    | apply demo_row_preserving | apply run1_ok].
Defined.



Lemma mixup_calls_split_at_half_witness :
  ∃ v s3 Ws Wls s4 ws wls,
    run (build_pool 0 1 2 1%Z 1) s0 = (Ok v, s3) ∧
    run (shuffle (W v) (Wlabels v)) s3 = (Ok (Ws, Wls), s4) ∧
    heap s4 !! Ws = Some ws ∧ heap s4 !! Wls = Some wls ∧
    trace run1.2 = trace s4 ++
      [first_call v 1 Ws Wls (len ws `div` 2) 7%Z 3;
       second_call v Ws Wls (len ws `div` 2) 7%Z 3].
Proof.
  destruct (mixup_calls_split_at_half 0 1 2 X0 Y0 U0 1%Z 7%Z 3 1
              (Ok (13, 14, 15, 16)) s0 run1.2 eq_refl eq_refl eq_refl run1_ok)
    as [Hret Hcalls].
  destruct (Hret _ eq_refl) as (v & s3 & Ws & Wls & s4 & Hb & Hsh).
  destruct (Hcalls v s3 Ws Wls s4 Hb Hsh)
    as (ws & wls & Hws & Hwls & _ & _ & _ & Ht).
  exists v, s3, Ws, Wls, s4, ws, wls.
  split; [exact Hb|]. split; [exact Hsh|]. split; [exact Hws|].
  split; [exact Hwls | exact Ht].
Defined.

(** With the defaults' [naug = 5] and NumPy before 1.24 the label pool
    of line 107 is a 1-D array of lists. *)
Lemma pool5_ragged :
  ∃ its, pool5.1 = Ok (Locals 4 [6; 8; 10; 12; 14] 14 20 21 22) ∧
         heap pool5.2 !! 22 = Some (Arr1 its).
Proof. eexists. split; vm_compute; reflexivity. Qed.

(** With NumPy from 1.24 on, line 107 raises instead. *)
Lemma pool5_modern_raises : pool5_modern.1 = Err ValueError.
Proof. vm_compute. reflexivity. Qed.


Lemma mixmatch_inputs_untouched_witness :
  heap s0 `prefix_of` heap run1.2 ∧
  (∃ t, trace run1.2 = trace s0 ++ t ∧ Forall (fresh_write s0) t) ∧
  (∀ Xp Yp Up Qp, Ok (13, 14, 15, 16) = Ok (Xp, Yp, Up, Qp) →
     length (heap s0) ≤ Xp ∧ Xp < Yp ∧ Yp < Up ∧ Up < Qp ∧
     Qp < length (heap run1.2)) ∧
  (∀ x y u out,
     heap s0 !! 0 = Some (Mat x) →
     heap s0 !! 1 = Some (Mat y) →
     heap s0 !! 2 = Some (Mat u) →
     Ok (13, 14, 15, 16) = Ok out →
     ∃ v s3, run (build_pool 0 1 2 1%Z 1) s0 = (Ok v, s3) ∧
       length (heap s0) ≤ Q v ∧
       writes (drop (length (trace s0)) (trace run1.2)) = [Q v]).
Proof.
  apply (mixmatch_inputs_untouched (H0 := demo) 0 1 2 1%Z 7%Z 3 1
           (Ok (13, 14, 15, 16)) s0).
  apply run1_ok.
Defined.

Lemma mixmatch_deterministic_witness :
  observe (run (mixmatch_ot1d 0 1 2 1%Z 7%Z 3 2) s0) =
  observe (run (mixmatch_ot1d 3 2 0 1%Z 7%Z 3 2) s0').
Proof.
  apply (mixmatch_deterministic 0 1 2 3 2 0 X0 Y0 U0);
    [reflexivity | reflexivity | reflexivity | reflexivity | reflexivity
    | reflexivity | reflexivity | apply demo_deterministic].
Defined.

(** ** Further properties, evaluated *)

Lemma demo_permutation_source : permutation_source.
Proof. intros n g. cbn. apply reverse_Permutation. Qed.

Lemma pool1_ok :
  run (build_pool 0 1 2 1%Z 1) s0 = (Ok (Locals 4 [6] 6 8 9 10), pool1.2).
Proof. vm_compute. reflexivity. Qed.


Lemma noisy_augment_negative_scale_witness :
  run (generate_noise 0 (-1)%Z) s0 = (Err ValueError, s0) ∧
  ((1 ≤ 3)%Z → run (noisy_augment 0 (-1)%Z 3) s0 = (Err ValueError, s0)) ∧
  ((3 < 1)%Z → run (noisy_augment 0 (-1)%Z 3) s0 = (Ok [], s0)).
Proof.
  apply (noisy_augment_negative_scale 0 X0 (-1)%Z 3 s0); reflexivity.
Defined.

Lemma noisy_augment_app_witness :
  run (noisy_augment 0 1%Z (1 + 2)) s0 =
  run (a ← noisy_augment 0 1%Z 1; b ← noisy_augment 0 1%Z 2; mret (a ++ b)) s0.
Proof.
  apply (noisy_augment_app (H0 := demo) 0 1%Z 1 2 s0); lia.
Defined.


Lemma pseudo_labels_rearrange_predictions_witness :
  ∃ ts q,
    predict_all (noisy_copies U0 1%Z 3 (noise_rng X0 1%Z (rng s0))) (pst s_aug)
      = (inr ts, pst s_lab) ∧
    holds (heap s_lab) (seq (length (heap s_aug)) (length [6; 8; 10])) ts ∧
    heap s_lab !! 14 = Some (Mat q) ∧
    ∀ i r, rows q !! i = Some r →
      ∃ rs, Forall2 (λ t ri, rows t !! i = Some ri) ts rs ∧ r ≡ₚ concat rs.
Proof.
  apply (pseudo_labels_rearrange_predictions [6; 8; 10]
           (noisy_copies U0 1%Z 3 (noise_rng X0 1%Z (rng s0))) 14 s_aug s_lab).
  - repeat constructor.
  - vm_compute. reflexivity.
Defined.

Lemma shuffled_pool_keeps_labels_witness :
  ∃ xh uh q w wl Ws Wls s4 ws wls,
    heap pool1.2 !! 4 = Some (Mat xh) ∧
    heap pool1.2 !! 6 = Some (Mat uh) ∧
    heap pool1.2 !! 8 = Some (Mat q) ∧
    heap pool1.2 !! 9 = Some w ∧
    heap pool1.2 !! 10 = Some wl ∧
    pairs w wl = zip (rows xh) (rows Y0) ++ zip (rows uh) (rows q) ∧
    run (shuffle 9 10) pool1.2 = (Ok (Ws, Wls), s4) ∧
    heap s4 !! Ws = Some ws ∧
    heap s4 !! Wls = Some wls ∧
    pairs ws wls ≡ₚ zip (rows xh) (rows Y0) ++ zip (rows uh) (rows q).
Proof.
  apply (shuffled_pool_keeps_labels 0 1 2 X0 Y0 U0 1%Z 1
           (Locals 4 [6] 6 8 9 10) s0 pool1.2);
    [reflexivity | reflexivity | reflexivity | reflexivity
    | apply demo_row_preserving | apply demo_permutation_source
    | apply pool1_ok].
Defined.

Lemma mixup_halves_sizes_witness :
  ∃ v s3 Ws Wls s4 ws wls,
    run (build_pool 0 1 2 1%Z 1) s0 = (Ok v, s3) ∧
    run (shuffle (W v) (Wlabels v)) s3 = (Ok (Ws, Wls), s4) ∧
    heap s4 !! Ws = Some ws ∧
    heap s4 !! Wls = Some wls ∧
    nrows X0 = nrows Y0 ∧
    len ws = nrows X0 + nrows U0 ∧
    len wls = nrows X0 + nrows U0 ∧
    let l := len ws `div` 2 in
    let n := nrows X0 + nrows U0 in
    len (slice_to l ws) = n `div` 2 ∧
    len (slice_to l wls) = n `div` 2 ∧
    len (slice_from l ws) = n - n `div` 2 ∧
    len (slice_from l wls) = n - n `div` 2 ∧
    items_of (slice_to l ws) ++ items_of (slice_from l ws) = items_of ws ∧
    items_of (slice_to l wls) ++ items_of (slice_from l wls) = items_of wls ∧
    (len (slice_to l ws) = nrows X0 ∧ len (slice_from l ws) = nrows U0
       ↔ nrows U0 = nrows X0 ∨ nrows U0 = S (nrows X0)).
Proof.
  apply (mixup_halves_sizes 0 1 2 X0 Y0 U0 1%Z 7%Z 3 1 (13, 14, 15, 16) s0 run1.2);
    [reflexivity | reflexivity | reflexivity
    | apply demo_row_preserving | apply demo_permutation_source
    | apply run1_ok].
Defined.




Lemma mixmatch_returns_only_if_witness :
  (1 ≤ 1)%Z ∧
  flt 1%Z fzero = false ∧
  ncols X0 = ncols U0 ∧
  (row_preserving → nrows X0 = nrows Y0) ∧
  (label_column → legacy_ragged = false → wf_matrix Y0 →
   0 < nrows Y0 → 0 < nrows U0 → Z.of_nat (ncols Y0) = 1%Z).
Proof.
  apply (mixmatch_returns_only_if 0 1 2 X0 Y0 U0 1%Z 7%Z 3 1 (13, 14, 15, 16)
           s0 run1.2);
    [reflexivity | reflexivity | reflexivity | apply run1_ok].
Defined.


End Evaluation.

(** ** A predictor that raises *)

Section FailingPredictor.
Import Demo.
#[local] Existing Instance demo_failing.


End FailingPredictor.

(** ** A predictor whose answers differ in length *)

Section UnevenPredictor.
Import Demo.
#[local] Existing Instance demo_uneven.


End UnevenPredictor.

(** ** NumPy from 1.24 on *)

Section ModernNumPy.
Import Demo.
#[local] Existing Instance demo_modern.

Lemma demo_modern_label_column : label_column.
Proof.
  intros m p. eexists _, _. split; [reflexivity|].
  split; [by unfold nrows; cbn; rewrite length_fmap|]. split; [done|].
  unfold wf_matrix. cbn. apply Forall_fmap, Forall_true. done.
Qed.


End ModernNumPy.
